(** * Flask helpers: a shallow embedding of [flask/helpers.py]

    The development follows the source file top to bottom:

    - [EnvFlags]  : [get_debug_flag], [get_load_dotenv];
    - [Stream]    : [stream_with_context] and the generator it builds;
    - [Flash]     : [flash] and [get_flashed_messages] over a session
                    that holds references to Python list objects;
    - [RootPath]  : [get_root_path];
    - [Blueprints]: [_split_blueprint_path];
    - [SendFile]  : [_prepare_send_file_kwargs], [send_file],
                    [send_from_directory].

    Python strings are [string]s (byte strings; [lower] acts on the
    ASCII letters), dicts are [gmap]s, Python objects that are shared
    and mutated live in an explicit store, and code that can raise
    returns in an error monad. *)

From Stdlib Require Import Ascii String.
From stdpp Require Import base option list gmap strings fin_maps.

Open Scope string_scope.
Open Scope list_scope.

(** ** Exceptions raised by, or passing through, the helpers *)

Inductive exn :=
  | RuntimeError (msg : string)
  | KeyError (key : string)
  | ImportError (name : string)
  | ValueError
  | TypeError
  | StopIteration
  | GeneratorExit
  | OtherError (tag : string).

#[global] Instance exn_eq_dec : EqDecision exn.
Proof. solve_decision. Defined.

(** ** Environment flags ([get_debug_flag], [get_load_dotenv]) *)

Module EnvFlags.

(** [str.lower] on the ASCII range: [A]..[Z] go to [a]..[z], every
    other byte is kept. *)
Definition lower_ascii (c : ascii) : ascii :=
  let n := nat_of_ascii c in
  if bool_decide (65 ≤ n ≤ 90)%nat then ascii_of_nat (n + 32) else c.

Fixpoint lower (s : string) : string :=
  match s with
  | EmptyString => EmptyString
  | String c s' => String (lower_ascii c) (lower s')
  end.

(** Truthiness of a [str]: the empty string is false. *)
Definition str_truthy (s : string) : bool :=
  match s with EmptyString => false | String _ _ => true end.

(** The literal [{"0", "false", "no"}] (a tuple in [get_load_dotenv]). *)
Definition falsy_words : list string := ["0"; "false"; "no"].

(** [os.environ]: a mapping from names to values. *)
Abbreviation environ := (gmap string string).

(** [val = os.environ.get("FLASK_DEBUG")]
    [return bool(val and val.lower() not in {"0", "false", "no"})] *)
Definition get_debug_flag (env : environ) : bool :=
  match env !! "FLASK_DEBUG" with
  | None => false
  | Some val =>
      if str_truthy val
      then negb (bool_decide (lower val ∈ falsy_words))
      else false
  end.

(** [val = os.environ.get("FLASK_SKIP_DOTENV")]
    [if not val: return default]
    [return val.lower() in ("0", "false", "no")] *)
Definition get_load_dotenv (default : bool) (env : environ) : bool :=
  match env !! "FLASK_SKIP_DOTENV" with
  | None => default
  | Some val =>
      if str_truthy val
      then bool_decide (lower val ∈ falsy_words)
      else default
  end.

Lemma str_truthy_false s : str_truthy s = false ↔ s = "".
Proof. destruct s; simpl; split; congruence. Qed.

Lemma str_truthy_true s : s ≠ "" → str_truthy s = true.
Proof. destruct s; simpl; congruence. Qed.

Lemma lower_idempotent s : lower (lower s) = lower s.
Proof.
  induction s as [|c s IH]; simpl; [done|]. f_equal; [|done].
  unfold lower_ascii at 1. case_bool_decide as Hin; [|done].
  exfalso. revert Hin. unfold lower_ascii.
  case_bool_decide as Hc; [|tauto].
  rewrite nat_ascii_embedding; lia.
Qed.

Example lower_mixed : lower "FaLsE" = "false".
Proof. reflexivity. Qed.

Example debug_flag_upper_no :
  get_debug_flag {[ "FLASK_DEBUG" := "NO" ]} = false.
Proof. vm_compute. reflexivity. Qed.

Example debug_flag_one :
  get_debug_flag {[ "FLASK_DEBUG" := "1" ]} = true.
Proof. vm_compute. reflexivity. Qed.

Example load_dotenv_skip_set :
  get_load_dotenv true {[ "FLASK_SKIP_DOTENV" := "1" ]} = false.
Proof. vm_compute. reflexivity. Qed.

Example load_dotenv_skip_false :
  get_load_dotenv false {[ "FLASK_SKIP_DOTENV" := "False" ]} = true.
Proof. vm_compute. reflexivity. Qed.

(** Matching without regard to case, as the specification words it and
    without reference to [lower]: two bytes are the same letter when they
    are equal or when one is a capital [A]..[Z] and the other is its
    small letter; two strings match when they have the same length and
    the same letters. *)
Definition same_letter (c d : ascii) : bool :=
  let nc := nat_of_ascii c in
  let nd := nat_of_ascii d in
  bool_decide (nc = nd)
  || (bool_decide (65 ≤ nc ≤ 90)%nat && bool_decide (nd = nc + 32)%nat)
  || (bool_decide (65 ≤ nd ≤ 90)%nat && bool_decide (nc = nd + 32)%nat).

Fixpoint matches_ignoring_case (s t : string) : bool :=
  match s, t with
  | EmptyString, EmptyString => true
  | String c s', String d t' => same_letter c d && matches_ignoring_case s' t'
  | _, _ => false
  end.

Example no_matches_NO : matches_ignoring_case "NO" "no" = true.
Proof. reflexivity. Qed.

Example false_matches_FaLsE : matches_ignoring_case "FaLsE" "false" = true.
Proof. reflexivity. Qed.

Example no_does_not_match_on : matches_ignoring_case "on" "no" = false.
Proof. reflexivity. Qed.

Example no_does_not_match_non : matches_ignoring_case "non" "no" = false.
Proof. reflexivity. Qed.

Lemma ascii_eq_nat (c d : ascii) : c = d ↔ nat_of_ascii c = nat_of_ascii d.
Proof.
  split; [by intros ->|]. intros Heq.
  by rewrite <- (ascii_nat_embedding c), <- (ascii_nat_embedding d), Heq.
Qed.

Lemma lower_ascii_nat (c : ascii) :
  nat_of_ascii (lower_ascii c)
    = if bool_decide (65 ≤ nat_of_ascii c ≤ 90)%nat
      then (nat_of_ascii c + 32)%nat else nat_of_ascii c.
Proof.
  unfold lower_ascii. case_bool_decide; [|done].
  apply nat_ascii_embedding. lia.
Qed.

(** [lower] agrees with matching: against a word that has no capitals,
    a value matches exactly when its lowercase form is the word. *)
Lemma lower_ascii_same_letter (c d : ascii) :
  lower_ascii d = d → (lower_ascii c = d ↔ same_letter c d = true).
Proof.
  rewrite !ascii_eq_nat, !lower_ascii_nat. unfold same_letter.
  rewrite !orb_true_iff, !andb_true_iff, !bool_decide_eq_true.
  repeat case_bool_decide; lia.
Qed.

Lemma lower_matches (val : string) : ∀ word,
  lower word = word →
  (lower val = word ↔ matches_ignoring_case val word = true).
Proof.
  induction val as [|c val IH]; intros [|d word] Hword; simpl in *;
    try (split; (done || discriminate)).
  injection Hword as Hd Hword.
  rewrite andb_true_iff, <- (IH word Hword), <- (lower_ascii_same_letter c d Hd).
  split; [by intros [= -> ->] | by intros [-> ->]].
Qed.

Lemma falsy_words_lowercase word : word ∈ falsy_words → lower word = word.
Proof.
  unfold falsy_words. rewrite !elem_of_cons, elem_of_nil.
  intros [-> | [-> | [-> | []]]]; reflexivity.
Qed.

Lemma lower_in_falsy_words val :
  lower val ∈ falsy_words ↔
    ∃ word, word ∈ falsy_words ∧ matches_ignoring_case val word = true.
Proof.
  split.
  - intros Hin. exists (lower val). split; [done|].
    by apply lower_matches; [apply falsy_words_lowercase|].
  - intros (word & Hin & Hmatch).
    apply lower_matches in Hmatch; [|by apply falsy_words_lowercase].
    by rewrite Hmatch.
Qed.

(** C9. The two environment flags are read by presence and by
    case-insensitive comparison with "0", "false", "no":
    [get_debug_flag] is [False] when the variable is unset or empty and
    otherwise [True] exactly when the value matches none of the three
    words, whatever its case; [get_load_dotenv] gives its default when
    the variable is unset or empty and otherwise [True] exactly when the
    value matches one of the three words, whatever its case. *)
Theorem env_flags_parse (env : environ) (default : bool) :
  (* FLASK_DEBUG *)
  ((env !! "FLASK_DEBUG" = None ∨ env !! "FLASK_DEBUG" = Some "") →
     get_debug_flag env = false) ∧
  (∀ val, env !! "FLASK_DEBUG" = Some val → val ≠ "" →
     (get_debug_flag env = true ↔
        ∀ word, word ∈ ["0"; "false"; "no"] →
                matches_ignoring_case val word = false)) ∧
  (* FLASK_SKIP_DOTENV *)
  ((env !! "FLASK_SKIP_DOTENV" = None ∨ env !! "FLASK_SKIP_DOTENV" = Some "") →
     get_load_dotenv default env = default) ∧
  (∀ val, env !! "FLASK_SKIP_DOTENV" = Some val → val ≠ "" →
     (get_load_dotenv default env = true ↔
        ∃ word, word ∈ ["0"; "false"; "no"] ∧
                matches_ignoring_case val word = true)).
Proof.
  unfold get_debug_flag, get_load_dotenv.
  split; [|split; [|split]].
  - intros [-> | ->]; done.
  - intros val Hval Hne. rewrite Hval, (str_truthy_true _ Hne).
    rewrite negb_true_iff, bool_decide_eq_false, lower_in_falsy_words.
    unfold falsy_words. split.
    + intros Hnone word Hword.
      destruct (matches_ignoring_case val word) eqn:Hmatch; [|done].
      destruct Hnone. eauto.
    + intros Hall (word & Hword & Hmatch). by rewrite (Hall word Hword) in Hmatch.
  - intros [-> | ->]; done.
  - intros val Hval Hne. rewrite Hval, (str_truthy_true _ Hne).
    by rewrite bool_decide_eq_true, lower_in_falsy_words.
Qed.

(** The theorem at a concrete environment: "No" leaves debugging off
    and "FALSE" asks for the dotenv files. *)
Lemma env_flags_parse_witness :
  let env : environ :=
    {[ "FLASK_DEBUG" := "No"; "FLASK_SKIP_DOTENV" := "FALSE" ]} in
  get_debug_flag env = false ∧ get_load_dotenv false env = true.
Proof.
  intros env.
  destruct (env_flags_parse env false) as (_ & Hdebug & _ & Hdotenv).
  split.
  - assert ("no" ∈ ["0"; "false"; "no"]) as Hno.
    { apply elem_of_cons; right. apply elem_of_cons; right.
      apply elem_of_cons; by left. }
    destruct (Hdebug "No") as [Hnone _]; [by vm_compute|discriminate|].
    destruct (get_debug_flag env); [|done].
    specialize (Hnone eq_refl "no" Hno). discriminate Hnone.
  - apply (Hdotenv "FALSE"); [by vm_compute|discriminate|].
    exists "false". split; [|reflexivity].
    apply elem_of_cons; right. apply elem_of_cons; by left.
Defined.

(** *** Further properties of the flags *)

Lemma lower_truthy v v' : lower v = lower v' → str_truthy v = str_truthy v'.
Proof. destruct v, v'; simpl; (done || discriminate). Qed.

(** X1. The two flags do not depend on the case of the value: two
    values with the same lowercase form give the same reading. *)
Theorem flags_ignore_case (env : environ) (default : bool) (v v' : string) :
  lower v = lower v' →
  get_debug_flag (<["FLASK_DEBUG" := v]> env)
    = get_debug_flag (<["FLASK_DEBUG" := v']> env) ∧
  get_load_dotenv default (<["FLASK_SKIP_DOTENV" := v]> env)
    = get_load_dotenv default (<["FLASK_SKIP_DOTENV" := v']> env).
Proof.
  intros Hlower. unfold get_debug_flag, get_load_dotenv.
  rewrite !lookup_insert_eq.
  rewrite (lower_truthy v v' Hlower), Hlower. done.
Qed.

Lemma flags_ignore_case_witness :
  get_debug_flag (<["FLASK_DEBUG" := "False"]> ∅)
    = get_debug_flag (<["FLASK_DEBUG" := "FALSE"]> ∅) ∧
  get_load_dotenv true (<["FLASK_SKIP_DOTENV" := "False"]> ∅)
    = get_load_dotenv true (<["FLASK_SKIP_DOTENV" := "FALSE"]> ∅).
Proof. apply (flags_ignore_case ∅ true "False" "FALSE"). reflexivity. Defined.

(** X2. A non-empty value is read in opposite ways by the two flags:
    it asks for the dotenv files exactly when, as [FLASK_DEBUG], it
    would leave debugging off; the default plays no part. *)
Theorem skip_dotenv_reads_opposite (env env' : environ) (default : bool)
    (v : string) :
  v ≠ "" →
  get_load_dotenv default (<["FLASK_SKIP_DOTENV" := v]> env)
    = negb (get_debug_flag (<["FLASK_DEBUG" := v]> env')).
Proof.
  intros Hne. unfold get_debug_flag, get_load_dotenv.
  rewrite !lookup_insert_eq, (str_truthy_true v Hne).
  by rewrite negb_involutive.
Qed.

Lemma skip_dotenv_reads_opposite_witness :
  get_load_dotenv false (<["FLASK_SKIP_DOTENV" := "yes"]> ∅)
    = negb (get_debug_flag (<["FLASK_DEBUG" := "yes"]> ∅)).
Proof. apply (skip_dotenv_reads_opposite ∅ ∅ false "yes"). discriminate. Defined.

End EnvFlags.

(** ** The context-preserving stream wrapper ([stream_with_context]) *)

Module Stream.

(** The message of the [RuntimeError] raised by [generator()] when no
    request context is active. *)
Definition no_context_msg : string :=
  "'stream_with_context' can only be used when a request context is active, such as in a view function.".

(** PEP 479: a [StopIteration] that escapes a generator body reaches the
    caller as this [RuntimeError]. *)
Definition stop_in_generator_msg : string := "generator raised StopIteration".

(** What [next(it)] gives: an item, or an exception; the end of the
    sequence is the exception [StopIteration], as in Python. *)
Inductive step (A It : Type) :=
  | Yield (a : A) (s : It)
  | Raise (e : exn) (s : It).
Arguments Yield {A It} a s.
Arguments Raise {A It} e s.

Inductive event (Ctx : Type) :=
  | EvPush (c : Ctx)     (* [ctx.__enter__()] *)
  | EvPop (c : Ctx)      (* [ctx.__exit__(...)] *)
  | EvClose.             (* [gen.close()] *)
Arguments EvPush {Ctx} c.
Arguments EvPop {Ctx} c.
Arguments EvClose {Ctx}.

#[global] Instance event_eq_dec `{EqDecision Ctx} : EqDecision (event Ctx).
Proof. solve_decision. Defined.

(** Modelled from the spec: the ambient request context ([_cv_request]
    of [flask/globals.py], and [RequestContext.__enter__]/[__exit__] of
    [flask/ctx.py], neither in this file) is a stack: a context is pushed
    when it is entered and popped when it is left, and
    [_cv_request.get(None)] is its top.  [log] records what the wrapper
    did to its collaborators, oldest first. *)
Record world (Ctx : Type) := World {
  cv_request : list Ctx;
  log : list (event Ctx)
}.
Arguments World {Ctx} cv_request log.
Arguments cv_request {Ctx} w.
Arguments log {Ctx} w.

Section Generator.
Context {Ctx A It Args : Type}.
Context `{!EqDecision Ctx}.

(** The underlying iterator [gen = iter(generator_or_function)]:
    [gen_next] is its [__next__], which may read the request context
    that is active when it runs; [gen_close] is its [close] method
    when [hasattr(gen, "close")]. *)
Variable gen_next : list Ctx → It → step A It.
Variable gen_close : option (It → option exn * It).

Definition ctx_push (c : Ctx) (w : world Ctx) : world Ctx :=
  World (c :: cv_request w) (log w ++ [EvPush c]).

Definition ctx_pop (c : Ctx) (w : world Ctx) : world Ctx :=
  World (tail (cv_request w)) (log w ++ [EvPop c]).

(** The states of the generator object made by [generator()]; each
    holds the iterator [gen] its closure captured. *)
Inductive gstate :=
  | Created (s : It)                (* body not started *)
  | AtSentinel (c : Ctx) (s : It)   (* suspended at [yield None], inside [with ctx] *)
  | Delegating (c : Ctx) (s : It)   (* suspended inside [yield from gen] *)
  | Finished (s : It).

(** What [next(wrapped_g)] gives; the item [None] is the sentinel. *)
Inductive outcome :=
  | Yielded (x : option A)
  | Raised (e : exn).

(** [if hasattr(gen, "close"): gen.close()] *)
Definition call_close (s : It) (w : world Ctx) : option exn * It * world Ctx :=
  match gen_close with
  | None => (None, s, w)
  | Some close =>
      let '(r, s') := close s in
      (r, s', World (cv_request w) (log w ++ [EvClose]))
  end.

(** The [finally:] block with exception [pending] in flight ([None]:
    the [try] body completed); an exception of [gen.close()]
    replaces it. *)
Definition finally_block (pending : option exn) (s : It) (w : world Ctx)
  : option exn * It * world Ctx :=
  let '(r, s', w') := call_close s w in
  (match r with Some e' => Some e' | None => pending end, s', w').

(** The exception with which the generator frame is left, after the
    [finally:] block and [ctx.__exit__]. *)
Definition leave_frame (pending : option exn) : option exn :=
  match pending with
  | Some StopIteration => Some (RuntimeError stop_in_generator_msg)
  | other => other
  end.

(** One step of [yield from gen] for [next(wrapped_g)], then, when
    [gen] is exhausted or raises, the [finally:] block and the exit of
    [with ctx:]. *)
Definition delegate (c : Ctx) (s : It) (w : world Ctx)
  : outcome * gstate * world Ctx :=
  match gen_next (cv_request w) s with
  | Yield a s' => (Yielded (Some a), Delegating c s', w)
  | Raise e s' =>
      let pending := match e with StopIteration => None | _ => Some e end in
      let '(p, s'', w1) := finally_block pending s' w in
      let w2 := ctx_pop c w1 in
      (Raised (default StopIteration (leave_frame p)), Finished s'', w2)
  end.

(** [next(wrapped_g)] *)
Definition wrapped_next (g : gstate) (w : world Ctx)
  : outcome * gstate * world Ctx :=
  match g with
  | Created s =>
      match head (cv_request w) with          (* [ctx = _cv_request.get(None)] *)
      | None => (Raised (RuntimeError no_context_msg), Finished s, w)
      | Some c => (Yielded None, AtSentinel c s, ctx_push c w)
      end
  | AtSentinel c s => delegate c s w
  | Delegating c s => delegate c s w
  | Finished s => (Raised StopIteration, Finished s, w)
  end.

(** [wrapped_g.close()]: [GeneratorExit] is raised where the generator
    is suspended.  Inside [yield from gen] the call is first forwarded
    to [gen.close()] when it exists (PEP 380), and an exception of that
    call is raised in place of [GeneratorExit]; then the [finally:]
    block runs.  At [yield None] only [with ctx:] is left. *)
Definition wrapped_close (g : gstate) (w : world Ctx)
  : option exn * gstate * world Ctx :=
  match g with
  | Created s => (None, Finished s, w)
  | AtSentinel c s => (None, Finished s, ctx_pop c w)
  | Delegating c s =>
      let '(r, s1, w1) := call_close s w in
      let thrown := default GeneratorExit r in
      let '(p, s2, w2) := finally_block (Some thrown) s1 w1 in
      let w3 := ctx_pop c w2 in
      (match leave_frame p with
       | Some GeneratorExit => None
       | other => other
       end, Finished s2, w3)
  | Finished s => (None, Finished s, w)
  end.

(** A function handed to [stream_with_context] as a decorator: its
    metadata and its call, which may read the active request context
    and either raises or returns an iterator. *)
Record function := Function {
  fn_name : string;
  fn_doc : option string;
  fn_call : Args → list Ctx → exn + It
}.

(** [generator_or_function]: [iter()] succeeds on the first and raises
    [TypeError] on the second. *)
Inductive input :=
  | Iterable (s : It)
  | Callable (f : function).

(** Lines 96-124: build the generator, advance it once, return it. *)
Definition wrap_iterator (s : It) (w : world Ctx) : (exn + gstate) * world Ctx :=
  let wrapped_g := Created s in
  match wrapped_next wrapped_g w with          (* [next(wrapped_g)] *)
  | (Yielded _, g, w') => (inr g, w')
  | (Raised e, _, w') => (inl e, w')
  end.

(** What [stream_with_context] returns: the started generator, or the
    decorated function with the metadata [update_wrapper] copied. *)
Inductive returned :=
  | RetGenerator (g : gstate)
  | RetFunction (name : string) (doc : option string) (wrapped : function)
      (call : Args → world Ctx → (exn + gstate) * world Ctx).

(** The inner [decorator]: call the function, wrap what it returns. *)
Definition decorator (f : function) (args : Args) (w : world Ctx)
  : (exn + gstate) * world Ctx :=
  match fn_call f args (cv_request w) with
  | inl e => (inl e, w)
  | inr gen => wrap_iterator gen w      (* [stream_with_context(gen)] *)
  end.

Definition stream_with_context (x : input) (w : world Ctx)
  : (exn + returned) * world Ctx :=
  match x with
  | Callable f =>
      (inr (RetFunction (fn_name f) (fn_doc f) f (decorator f)), w)
  | Iterable s =>
      let '(r, w') := wrap_iterator s w in
      (match r with inl e => inl e | inr g => inr (RetGenerator g) end, w')
  end.

(** The consumer: up to [n] calls of [next], stopping at the first
    exception. *)
Fixpoint consume (n : nat) (g : gstate) (w : world Ctx)
  : list (option A) * option exn * gstate * world Ctx :=
  match n with
  | 0 => ([], None, g, w)
  | S n' =>
      match wrapped_next g w with
      | (Yielded x, g', w') =>
          let '(xs, r, g'', w'') := consume n' g' w' in (x :: xs, r, g'', w'')
      | (Raised e, g', w') => ([], Some e, g', w')
      end
  end.

(** The same consumer on the underlying iterator itself, run with the
    request contexts [stack] active. *)
Fixpoint gen_consume (n : nat) (stack : list Ctx) (s : It)
  : list A * option exn * It :=
  match n with
  | 0 => ([], None, s)
  | S n' =>
      match gen_next stack s with
      | Yield a s' =>
          let '(xs, r, s'') := gen_consume n' stack s' in (a :: xs, r, s'')
      | Raise e s' => ([], Some e, s')
      end
  end.

Definition closes (w : world Ctx) : nat :=
  length (filter (λ e, e = EvClose) (log w)).

Definition pops (c : Ctx) (w : world Ctx) : nat :=
  length (filter (λ e, e = EvPop c) (log w)).


(** What the underlying iterator yields in its first [n] steps, and
    whether it has ended by then. *)
Definition gen_items (n : nat) (stack : list Ctx) (s : It) : list A :=
  (gen_consume n stack s).1.1.

Definition gen_ended (n : nat) (stack : list Ctx) (s : It) : option exn :=
  (gen_consume n stack s).1.2.

(** How often the wrapper calls the cleanup hook where the code has one
    call of [gen.close()]: once when the hook exists, never otherwise. *)
Definition hook : nat := if gen_close is Some _ then 1 else 0.

(** The generator is suspended at one of its two [yield]s. *)
Definition suspended (c : Ctx) (s : It) (g : gstate) : Prop :=
  g = AtSentinel c s ∨ g = Delegating c s.

(** [with ctx:] was left between [w] and [w']: the stack lost its top
    and the log gained one [EvPop c]. *)
Definition released (c : Ctx) (w w' : world Ctx) : Prop :=
  cv_request w' = tail (cv_request w) ∧ pops c w' = S (pops c w).

(** *** Counting events *)

Lemma closes_snoc_close stack l :
  closes (World stack (l ++ [EvClose])) = S (closes (World stack l)).
Proof.
  unfold closes; simpl. rewrite filter_app, length_app.
  rewrite filter_cons_True by done. simpl. lia.
Qed.

Lemma closes_snoc_pop stack stack' l c :
  closes (World stack (l ++ [EvPop c])) = closes (World stack' l).
Proof.
  unfold closes; simpl. rewrite filter_app, length_app.
  rewrite filter_cons_False by done. simpl. lia.
Qed.

Lemma pops_snoc_pop stack stack' l c :
  pops c (World stack (l ++ [EvPop c])) = S (pops c (World stack' l)).
Proof.
  unfold pops; simpl. rewrite filter_app, length_app.
  rewrite filter_cons_True by done. simpl. lia.
Qed.

Lemma pops_snoc_close stack stack' l c :
  pops c (World stack (l ++ [EvClose])) = pops c (World stack' l).
Proof.
  unfold pops; simpl. rewrite filter_app, length_app.
  rewrite filter_cons_False by done. simpl. lia.
Qed.

Lemma call_close_effect s w :
  ∃ r s' w', call_close s w = (r, s', w') ∧
    cv_request w' = cv_request w ∧
    closes w' = closes w + hook ∧
    ∀ c, pops c w' = pops c w.
Proof.
  unfold call_close, hook. destruct gen_close as [close|].
  - destruct (close s) as [r s'] eqn:Hclose.
    eexists _, _, _. split; [done|]. destruct w as [stack l]; simpl.
    split; [done|]. split.
    + rewrite closes_snoc_close. lia.
    + intros c. apply pops_snoc_close.
  - eexists _, _, _. split; [done|]. repeat split; lia.
Qed.

Lemma finally_block_effect p s w :
  ∃ p' s' w', finally_block p s w = (p', s', w') ∧
    cv_request w' = cv_request w ∧
    closes w' = closes w + hook ∧
    ∀ c, pops c w' = pops c w.
Proof.
  unfold finally_block.
  destruct (call_close_effect s w) as (r & s' & w' & -> & Hstack & Hcl & Hpop).
  eauto 10.
Qed.

Lemma ctx_pop_effect c w :
  released c w (ctx_pop c w) ∧ closes (ctx_pop c w) = closes w.
Proof.
  destruct w as [stack l]. unfold released, ctx_pop; simpl.
  split; [split; [done|]|].
  - apply pops_snoc_pop.
  - apply closes_snoc_pop.
Qed.

(** *** Stepping a suspended generator *)

Lemma wrapped_next_suspended c s g w :
  suspended c s g → wrapped_next g w = delegate c s w.
Proof. by intros [-> | ->]. Qed.

Lemma delegate_yield c s w a s' :
  gen_next (cv_request w) s = Yield a s' →
  delegate c s w = (Yielded (Some a), Delegating c s', w).
Proof. unfold delegate. by intros ->. Qed.

Lemma delegate_raise c s w e s' :
  gen_next (cv_request w) s = Raise e s' →
  ∃ e' s'' w', delegate c s w = (Raised e', Finished s'', w') ∧
    released c w w' ∧ closes w' = closes w + hook.
Proof.
  unfold delegate. intros ->.
  destruct (finally_block_effect
              (match e with StopIteration => None | _ => Some e end) s' w)
    as (p & s'' & w1 & -> & Hstack & Hcl & Hpop).
  eexists _, _, _. split; [done|].
  destruct (ctx_pop_effect c w1) as [[Htail Hpops] Hcl'].
  split; [split|].
  - by rewrite Htail, Hstack.
  - by rewrite Hpops, Hpop.
  - by rewrite Hcl', Hcl.
Qed.

(** Consuming a suspended generator gives the items of the underlying
    iterator, and ends when it ends. *)
Lemma consume_suspended n : ∀ c s g w,
  suspended c s g →
  ∃ r g' w', consume n g w = (Some <$> gen_items n (cv_request w) s, r, g', w') ∧
    (r = None ↔ gen_ended n (cv_request w) s = None).
Proof.
  unfold gen_items, gen_ended.
  induction n as [|n IH]; intros c s g w Hg; simpl.
  { eexists _, _, _. split; [done|]. done. }
  rewrite (wrapped_next_suspended c s g w Hg).
  destruct (gen_next (cv_request w) s) as [a s'|e s'] eqn:Hnext.
  - rewrite (delegate_yield _ _ _ _ _ Hnext).
    destruct (IH c s' (Delegating c s') w) as (r & g' & w' & -> & Hend);
      [by right|].
    destruct (gen_consume n (cv_request w) s') as [[xs r0] s0] eqn:Hrest.
    simpl in *. eexists _, _, _. split; [done|]. done.
  - destruct (delegate_raise c _ _ _ _ Hnext) as (e' & s'' & w' & -> & _).
    simpl. eexists _, _, _. split; [done|]. done.
Qed.

(** *** Wrapping *)

Lemma wrap_iterator_active c s w :
  head (cv_request w) = Some c →
  wrap_iterator s w = (inr (AtSentinel c s), ctx_push c w).
Proof. unfold wrap_iterator; simpl. by intros ->. Qed.

Lemma wrap_iterator_inactive s l :
  wrap_iterator s (World [] l) = (inl (RuntimeError no_context_msg), World [] l).
Proof. reflexivity. Qed.

(** The context captured at wrap time is still the active one after the
    framework has popped its own push of it. *)
Lemma context_survives_pop c s w g w' :
  head (cv_request w) = Some c →
  wrap_iterator s w = (inr g, w') →
  head (tail (cv_request w')) = Some c.
Proof.
  intros Hc. rewrite (wrap_iterator_active c s w Hc).
  intros [= <- <-]. done.
Qed.

(** C2. When a request context is active at the call,
    [stream_with_context] returns a started generator, and iterating it
    (in whatever world the response layer later runs it, so in
    particular while a request context is active) yields exactly the
    items of the underlying iterator, in order, and ends when it ends;
    the sentinel [None] is not among the items the consumer sees. *)
Theorem stream_yields_underlying_items (c : Ctx) (s : It) (w : world Ctx) :
  head (cv_request w) = Some c →
  ∃ g, stream_with_context (Iterable s) w = (inr (RetGenerator g), ctx_push c w) ∧
    ∀ (n : nat) (w1 : world Ctx),
      ∃ ys r g' w2,
        consume n g w1 = (ys, r, g', w2) ∧
        ys = Some <$> gen_items n (cv_request w1) s ∧
        (None ∉ ys) ∧
        (r = None ↔ gen_ended n (cv_request w1) s = None).
Proof.
  intros Hc. exists (AtSentinel c s). split.
  - unfold stream_with_context. by rewrite (wrap_iterator_active c s w Hc).
  - intros n w1.
    destruct (consume_suspended n c s (AtSentinel c s) w1)
      as (r & g' & w2 & Hrun & Hend); [by left|].
    eexists _, r, g', w2. split; [exact Hrun|]. split; [done|]. split; [|done].
    intros Hin. apply list_elem_of_fmap in Hin as (a & Ha & _). discriminate.
Qed.

(** C3 (amended). The request context is looked up once, when the
    generator body starts, and [stream_with_context] starts it itself:
    with no request context active, the call on an iterable, and the
    call of a decorated function, fail with the [RuntimeError] and change
    nothing; a generator that is already suspended resumes without
    consulting the ambient context, also when none is active. *)
Theorem no_context_fails_at_wrap (s : It) (l : list (event Ctx)) :
  stream_with_context (Iterable s) (World [] l)
    = (inl (RuntimeError no_context_msg), World [] l) ∧
  (∀ f args gen, fn_call f args [] = inr gen →
     decorator f args (World [] l)
       = (inl (RuntimeError no_context_msg), World [] l)) ∧
  (∀ c g a s', suspended c s g → gen_next [] s = Yield a s' →
     wrapped_next g (World [] l) = (Yielded (Some a), Delegating c s', World [] l)).
Proof.
  split; [|split].
  - unfold stream_with_context. by rewrite wrap_iterator_inactive.
  - intros f args gen Hcall. unfold decorator; simpl. rewrite Hcall.
    apply wrap_iterator_inactive.
  - intros c g a s' Hg Hnext.
    rewrite (wrapped_next_suspended c s g _ Hg).
    by apply delegate_yield.
Qed.

(** What each way out of a suspended generator does.  The request
    context is released once on all of them.  The cleanup hook, when the
    underlying iterator has one, is called once when the iterator ends or
    raises, twice when the wrapper is closed while delegating (the
    forwarded [close()] of [yield from], then the [finally:] block), and
    not at all when the wrapper is closed before its first item was asked
    for. *)
Theorem cleanup_on_every_exit (c : Ctx) (s : It) (w : world Ctx) :
  (∀ g e s', suspended c s g → gen_next (cv_request w) s = Raise e s' →
     ∃ e' s'' w', wrapped_next g w = (Raised e', Finished s'', w') ∧
       closes w' = closes w + hook ∧ released c w w') ∧
  (∃ r s'' w', wrapped_close (Delegating c s) w = (r, Finished s'', w') ∧
       closes w' = closes w + 2 * hook ∧ released c w w') ∧
  (∃ w', wrapped_close (AtSentinel c s) w = (None, Finished s, w') ∧
       closes w' = closes w ∧ released c w w').
Proof.
  split; [|split].
  - intros g e s' Hg Hnext.
    rewrite (wrapped_next_suspended c s g w Hg).
    destruct (delegate_raise c s w e s' Hnext) as (e' & s'' & w' & -> & Hrel & Hcl).
    eauto 10.
  - unfold wrapped_close.
    destruct (call_close_effect s w) as (r & s1 & w1 & -> & Hst1 & Hcl1 & Hpop1).
    destruct (finally_block_effect (Some (default GeneratorExit r)) s1 w1)
      as (p & s2 & w2 & -> & Hst2 & Hcl2 & Hpop2).
    destruct (ctx_pop_effect c w2) as [[Htail Hpops] Hcl3].
    eexists _, _, _. split; [done|]. split; [|split].
    + rewrite Hcl3, Hcl2, Hcl1. lia.
    + by rewrite Htail, Hst2, Hst1.
    + by rewrite Hpops, Hpop2, Hpop1.
  - simpl. eexists. split; [done|].
    destruct (ctx_pop_effect c w) as [Hrel Hcl]. done.
Qed.

(** C6. Given a function, [stream_with_context] returns a function with
    the metadata of the original ([update_wrapper]).  Calling it with any
    arguments calls the original on them (an exception of the original
    propagates) and wraps the iterator obtained, as
    [stream_with_context] does for an iterator: with no request context
    active the call fails with the [RuntimeError]; with context [c]
    active it pushes [c] and returns a started generator whose items are
    those of the iterator, in order, under whatever stack it is later
    run. *)
Theorem decorated_function_wraps_result (f : function) (w : world Ctx) :
  ∃ call,
    stream_with_context (Callable f) w
      = (inr (RetFunction (fn_name f) (fn_doc f) f call), w) ∧
    ∀ (args : Args) (w1 : world Ctx),
      match fn_call f args (cv_request w1) with
      | inl e => call args w1 = (inl e, w1)
      | inr gen =>
          stream_with_context (Iterable gen) w1
            = (match (call args w1).1 with
               | inl e => inl e
               | inr g => inr (RetGenerator g)
               end, (call args w1).2) ∧
          match head (cv_request w1) with
          | None => call args w1 = (inl (RuntimeError no_context_msg), w1)
          | Some c =>
              ∃ g, call args w1 = (inr g, ctx_push c w1) ∧
                ∀ (n : nat) (w2 : world Ctx), ∃ r g' w3,
                  consume n g w2
                    = (Some <$> gen_items n (cv_request w2) gen, r, g', w3) ∧
                  (r = None ↔ gen_ended n (cv_request w2) gen = None)
          end
      end.
Proof.
  exists (decorator f). split; [done|].
  intros args w1. unfold decorator.
  destruct (fn_call f args (cv_request w1)) as [e|gen]; [done|].
  split.
  { unfold stream_with_context. by destruct (wrap_iterator gen w1) as [r w2]. }
  destruct (head (cv_request w1)) as [c|] eqn:Hhead.
  - exists (AtSentinel c gen). split; [by apply wrap_iterator_active|].
    intros n w2. apply (consume_suspended n c gen). by left.
  - unfold wrap_iterator, wrapped_next. by rewrite Hhead.
Qed.

(** *** Further properties of the wrapper *)

(** What the cleanup hook answers in state [s]: [None] when it returns
    (or when there is no hook), the exception when it raises. *)
Definition hook_result (s : It) : option exn :=
  match gen_close with
  | Some close => (close s).1
  | None => None
  end.

Lemma pops_snoc_push stack stack' l c c' :
  pops c (World stack (l ++ [EvPush c'])) = pops c (World stack' l).
Proof.
  unfold pops; simpl. rewrite filter_app, length_app.
  rewrite filter_cons_False by done. simpl. lia.
Qed.

Lemma closes_snoc_push stack stack' l c :
  closes (World stack (l ++ [EvPush c])) = closes (World stack' l).
Proof.
  unfold closes; simpl. rewrite filter_app, length_app.
  rewrite filter_cons_False by done. simpl. lia.
Qed.

(** Consuming a suspended generator, with the world it leaves: as long
    as the underlying iterator has not ended the world is untouched;
    once it has, the context is released and the hook was called. *)
Lemma consume_suspended_world n : ∀ c s g w,
  suspended c s g →
  ∃ r g' w',
    consume n g w = (Some <$> gen_items n (cv_request w) s, r, g', w') ∧
    match gen_ended n (cv_request w) s with
    | None => r = None ∧ w' = w ∧ ∃ s', suspended c s' g'
    | Some _ =>
        is_Some r ∧ released c w w' ∧ closes w' = closes w + hook ∧
        ∃ s', g' = Finished s'
    end.
Proof.
  unfold gen_items, gen_ended.
  induction n as [|n IH]; intros c s g w Hg; simpl.
  { eexists _, _, _. split; [done|]. eauto. }
  rewrite (wrapped_next_suspended c s g w Hg).
  destruct (gen_next (cv_request w) s) as [a s'|e s'] eqn:Hnext.
  - rewrite (delegate_yield _ _ _ _ _ Hnext).
    destruct (IH c s' (Delegating c s') w) as (r & g' & w' & -> & Hend);
      [by right|].
    destruct (gen_consume n (cv_request w) s') as [[xs r0] s0] eqn:Hrest.
    simpl in *. eexists _, _, _. split; [done|]. done.
  - destruct (delegate_raise c _ _ _ _ Hnext)
      as (e' & s'' & w' & -> & Hrel & Hcl).
    simpl. eexists _, _, _. split; [done|]. eauto 10.
Qed.

(** X3. The wrapped sequence runs in the context of the view: once the
    framework has popped its own push of the request context, iterating
    the wrapper yields what the underlying iterator yields under the
    stack that was active when [stream_with_context] was called. *)
Theorem stream_runs_in_view_context (c : Ctx) (s : It) (w : world Ctx) :
  head (cv_request w) = Some c →
  ∃ g w1, wrap_iterator s w = (inr g, w1) ∧
    ∀ n, ∃ r g' w2,
      consume n g (World (tail (cv_request w1)) (log w1))
        = (Some <$> gen_items n (cv_request w) s, r, g', w2).
Proof.
  intros Hc. rewrite (wrap_iterator_active c s w Hc).
  eexists _, _. split; [done|]. intros n.
  destruct (consume_suspended n c s (AtSentinel c s)
              (World (tail (cv_request (ctx_push c w))) (log (ctx_push c w))))
    as (r & g' & w2 & Hrun & _); [by left|].
  simpl in Hrun. eauto.
Qed.

(** X4. A wrapper that is iterated to the end of the underlying
    iterator leaves the stack of request contexts as it was before
    [stream_with_context] was called: its one push is undone by one pop,
    and the hook has been called once when there is one. *)
Theorem stream_restores_stack (c : Ctx) (s : It) (w : world Ctx) (n : nat) :
  head (cv_request w) = Some c →
  gen_ended n (c :: cv_request w) s ≠ None →
  ∃ g w1 r s' w2,
    wrap_iterator s w = (inr g, w1) ∧
    consume n g w1
      = (Some <$> gen_items n (c :: cv_request w) s, Some r, Finished s', w2) ∧
    cv_request w2 = cv_request w ∧
    pops c w2 = S (pops c w) ∧
    closes w2 = closes w + hook.
Proof.
  intros Hc Hended. rewrite (wrap_iterator_active c s w Hc).
  destruct (consume_suspended_world n c s (AtSentinel c s) (ctx_push c w))
    as (r & g' & w2 & Hrun & Hworld); [by left|].
  simpl in Hrun, Hworld.
  destruct (gen_ended n (c :: cv_request w) s) as [e|]; [|done].
  destruct Hworld as ([r' ->] & [Hstack Hpops] & Hcl & s' & ->).
  eexists _, _, r', s', w2. split; [done|]. split; [exact Hrun|].
  destruct w as [stack l]; simpl in *. split; [done|]. split.
  - rewrite Hpops. f_equal. apply pops_snoc_push.
  - rewrite Hcl. f_equal. apply closes_snoc_push.
Qed.

(** X5. How the end of the underlying iterator reaches the consumer:
    when the hook returns (or there is none) the wrapper raises the very
    exception the iterator raised, [StopIteration] included; when the
    hook raises, its exception replaces the iterator's, and a
    [StopIteration] of the hook arrives as a [RuntimeError]. *)
Theorem underlying_exception_propagates (c : Ctx) (s s' : It) (g : gstate)
    (w : world Ctx) (e : exn) :
  suspended c s g →
  gen_next (cv_request w) s = Raise e s' →
  (hook_result s' = None →
     ∃ s'' w', wrapped_next g w = (Raised e, Finished s'', w')) ∧
  (∀ e', hook_result s' = Some e' →
     ∃ s'' w', wrapped_next g w
       = (Raised (match e' with
                  | StopIteration => RuntimeError stop_in_generator_msg
                  | _ => e'
                  end), Finished s'', w')).
Proof.
  intros Hg Hnext. rewrite (wrapped_next_suspended c s g w Hg).
  unfold delegate, finally_block, call_close, hook_result.
  rewrite Hnext. destruct gen_close as [close|].
  - destruct (close s') as [r s''] eqn:Hclose. simpl. split.
    + intros ->. eexists _, _. by destruct e.
    + intros e' ->. eexists _, _. by destruct e'.
  - split; [|discriminate]. intros _. eexists _, _. by destruct e.
Qed.

End Generator.

(** *** Concrete iterators *)

(** A generator over a list of chunks; like every generator object it
    has a [close] method, which leaves it exhausted. *)
Definition chunks_next (stack : list nat) (s : list string)
  : step string (list string) :=
  match s with
  | [] => Raise StopIteration []
  | a :: s' => Yield a s'
  end.

Definition chunks_close : option (list string → option exn * list string) :=
  Some (λ _, (None, [])).

(** A generator that reads the request on every step, as the one of the
    docstring does with [request.args]: it yields the identity of the
    active request context [k] times, and fails outside of a context. *)
Definition echo_next (stack : list nat) (k : nat) : step nat nat :=
  match k with
  | 0 => Raise StopIteration 0
  | S k' =>
      match head stack with
      | Some c => Yield c k'
      | None => Raise (RuntimeError "Working outside of request context.") k'
      end
  end.

Definition echo_close : option (nat → option exn * nat) :=
  Some (λ _, (None, 0)).

Example echo_after_framework_pop :
  ∃ g w1,
    wrap_iterator echo_next echo_close 2 (World [7] []) = (inr g, w1) ∧
    consume echo_next echo_close 3 g (World (tail (cv_request w1)) (log w1))
      = ([Some 7; Some 7], Some StopIteration, Finished 0,
         World [] [EvPush 7; EvClose; EvPop 7]).
Proof. eexists _, _. split; reflexivity. Qed.

(** A view function used as a decorator target: called with a count
    it returns the generator that echoes the active request that many
    times.  Decorated and called inside request 7 it gives a started
    generator with request 7 pushed once more; called outside of any
    request it fails. *)
Definition echo_function : function (Ctx := nat) (It := nat) (Args := nat) :=
  Function "generate" None (λ count _, inr count).

Example decorated_echo_in_request :
  decorator echo_next echo_close echo_function 2 (World [7] [])
    = (inr (AtSentinel 7 2), World [7; 7] [EvPush 7]).
Proof. reflexivity. Qed.

Example decorated_echo_outside_request :
  decorator echo_next echo_close echo_function 2 (World [] [])
    = (inl (RuntimeError no_context_msg), World [] []).
Proof. reflexivity. Qed.

(** The theorem of C2 for the generator that echoes request 7 twice. *)
Lemma stream_yields_underlying_items_witness :
  ∃ g,
    stream_with_context echo_next echo_close (Args := unit) (Iterable 2) (World [7] [])
      = (inr (RetGenerator g), ctx_push 7 (World [7] [])) ∧
    ∀ (n : nat) (w1 : world nat),
      ∃ ys r g' w2,
        consume echo_next echo_close n g w1 = (ys, r, g', w2) ∧
        ys = Some <$> gen_items echo_next n (cv_request w1) 2 ∧
        (None ∉ ys) ∧
        (r = None ↔ gen_ended echo_next n (cv_request w1) 2 = None).
Proof.
  apply (stream_yields_underlying_items echo_next echo_close 7 2 (World [7] [])).
  reflexivity.
Defined.

(** C3 (as stated, refuted). A generator obtained while request 1 was
    active is resumed in a world where no request context is active:
    the resumption does not fail, it yields the first chunk. *)
Lemma resume_without_context_yields :
  ∃ g w1,
    stream_with_context chunks_next chunks_close (Args := unit)
        (Iterable ["Hello "; "World"]) (World [1] [])
      = (inr (RetGenerator g), w1) ∧
    wrapped_next chunks_next chunks_close g (World [] (log w1))
      = (Yielded (Some "Hello "), Delegating 1 ["World"], World [] (log w1)).
Proof. eexists _, _. split; reflexivity. Qed.

(** The theorem of C3 (amended) for the chunk generator. *)
Lemma no_context_fails_at_wrap_witness :
  stream_with_context chunks_next chunks_close (Args := unit)
      (Iterable ["Hello "; "World"]) (World [] [])
    = (inl (RuntimeError no_context_msg), World [] []) ∧
  wrapped_next chunks_next chunks_close (AtSentinel 1 ["Hello "; "World"]) (World [] [])
    = (Yielded (Some "Hello "), Delegating 1 ["World"], World [] []).
Proof.
  destruct (no_context_fails_at_wrap chunks_next chunks_close (Args := unit)
              ["Hello "; "World"] []) as (Hwrap & _ & Hresume).
  split; [exact Hwrap|].
  apply Hresume; [by left | reflexivity].
Defined.

(** C4. Early abandonment does not invoke the cleanup hook exactly
    once, as completion and errors do.  A wrapper over two chunks is
    closed after its first chunk: the hook of the underlying generator
    is called twice.  Closed before any chunk was asked for: the hook is
    not called at all.  In both runs the context is released. *)
Lemma abandon_does_not_close_exactly_once :
  (∃ g w1 g2 w2 g3 w3,
     wrap_iterator chunks_next chunks_close ["a"; "b"] (World [1] []) = (inr g, w1) ∧
     wrapped_next chunks_next chunks_close g w1 = (Yielded (Some "a"), g2, w2) ∧
     wrapped_close chunks_close g2 w2 = (None, g3, w3) ∧
     log w3 = [EvPush 1; EvClose; EvClose; EvPop 1] ∧
     closes w3 = 2) ∧
  (∃ g w1 g3 w3,
     wrap_iterator chunks_next chunks_close ["a"; "b"] (World [1] []) = (inr g, w1) ∧
     wrapped_close chunks_close g w1 = (None, g3, w3) ∧
     log w3 = [EvPush 1; EvPop 1] ∧
     closes w3 = 0).
Proof.
  split.
  - eexists _, _, _, _, _, _. repeat split; reflexivity.
  - eexists _, _, _, _. repeat split; reflexivity.
Qed.

(** The chunk generator ends after its last chunk with one call of the
    hook and one release. *)
Lemma cleanup_on_every_exit_witness :
  ∃ e' s'' w',
    wrapped_next chunks_next chunks_close (Delegating 1 [])
        (World [1] [EvPush 1])
      = (Raised e', Finished s'', w') ∧
    closes w' = closes (World [1] [EvPush 1]) + hook chunks_close ∧
    released 1 (World [1] [EvPush 1]) w'.
Proof.
  destruct (cleanup_on_every_exit chunks_next chunks_close 1 []
              (World [1] [EvPush 1])) as (Hend & _ & _).
  apply (Hend (Delegating 1 []) StopIteration []); [by right | reflexivity].
Defined.

(** X3 for the generator that echoes the active request. *)
Lemma stream_runs_in_view_context_witness :
  ∃ g w1, wrap_iterator echo_next echo_close 2 (World [7] []) = (inr g, w1) ∧
    ∀ n, ∃ r g' w2,
      consume echo_next echo_close n g (World (tail (cv_request w1)) (log w1))
        = (Some <$> gen_items echo_next n [7] 2, r, g', w2).
Proof.
  apply (stream_runs_in_view_context echo_next echo_close 7 2 (World [7] [])).
  reflexivity.
Defined.

(** X4 for two chunks read to the end. *)
Lemma stream_restores_stack_witness :
  ∃ g w1 r s' w2,
    wrap_iterator chunks_next chunks_close ["a"; "b"] (World [1] []) = (inr g, w1) ∧
    consume chunks_next chunks_close 3 g w1
      = (Some <$> gen_items chunks_next 3 [1; 1] ["a"; "b"], Some r, Finished s', w2) ∧
    cv_request w2 = [1] ∧
    pops 1 w2 = S (pops 1 (World [1] [])) ∧
    closes w2 = closes (World [1] []) + hook chunks_close.
Proof.
  apply (stream_restores_stack chunks_next chunks_close 1 ["a"; "b"]
           (World [1] []) 3); [reflexivity | discriminate].
Defined.

(** X5 for the chunk generator at its end. *)
Lemma underlying_exception_propagates_witness :
  ∃ s'' w',
    wrapped_next chunks_next chunks_close (Delegating 1 []) (World [1] [])
      = (Raised StopIteration, Finished s'', w').
Proof.
  destruct (underlying_exception_propagates chunks_next chunks_close 1 [] []
              (Delegating 1 []) (World [1] []) StopIteration) as [Hquiet _];
    [by right | reflexivity |].
  apply Hquiet. reflexivity.
Defined.

End Stream.

(** ** The flash-message queue ([flash], [get_flashed_messages]) *)

Module Flash.

(** A flash entry is the tuple [(category, message)]. *)
Abbreviation entry := (string * string)%type.

(** References to Python list objects. *)
Abbreviation loc := nat.

(** The session's reserved key. *)
Definition flashes_key : string := "_flashes".

(** Modelled from the spec: the session storage (the [session] proxy of
    [flask/globals.py] and the session classes, not in this file), with
    the contract get-with-default, membership, pop and assign.  The
    comment in [flash] distinguishes two kinds of session: one that keeps
    the objects it was given, like a [dict], so that what [get] returns
    is the stored list itself; and one that keeps its values in external
    storage, so that [get] and [pop] return a fresh copy and assignment
    stores a copy. *)
Inductive session_store :=
  | DictSession (d : gmap string loc)
  | ExternalSession (d : gmap string (list entry)).

(** The calls received by the session, oldest first. *)
Inductive session_op :=
  | OpGet (key : string)
  | OpContains (key : string)
  | OpPop (key : string)
  | OpSetItem (key : string) (value : list entry).

Section WithApp.
Context {App : Type}.

(** [heap]: the list objects; [session]; [request_flashes]:
    [request_ctx.flashes]; [current_app]: the application behind the
    proxy; [sent]: the calls of [message_flashed.send], as
    (sender, message, category); [ops]: the calls on the session. *)
Record state := State {
  heap : gmap loc (list entry);
  session : session_store;
  request_flashes : option loc;
  current_app : App;
  sent : list (App * string * string);
  ops : list session_op
}.

Definition set_heap (h : gmap loc (list entry)) (st : state) : state :=
  State h (session st) (request_flashes st) (current_app st) (sent st) (ops st).

Definition set_session (s : session_store) (st : state) : state :=
  State (heap st) s (request_flashes st) (current_app st) (sent st) (ops st).

Definition set_request_flashes (f : option loc) (st : state) : state :=
  State (heap st) (session st) f (current_app st) (sent st) (ops st).

Definition add_sent (x : App * string * string) (st : state) : state :=
  State (heap st) (session st) (request_flashes st) (current_app st)
        (sent st ++ [x]) (ops st).

Definition add_op (o : session_op) (st : state) : state :=
  State (heap st) (session st) (request_flashes st) (current_app st)
        (sent st) (ops st ++ [o]).

(** Computations that read and write the state and may raise. *)
Definition M (A : Type) : Type := state → exn + (A * state).

Definition ret {A} (a : A) : M A := λ st, inr (a, st).

Definition bind {A B} (m : M A) (k : A → M B) : M B :=
  λ st, match m st with
        | inl e => inl e
        | inr (a, st') => k a st'
        end.

Definition raise {A} (e : exn) : M A := λ _, inl e.

Notation "x ←' m ; k" := (bind m (λ x, k))
  (at level 100, m at next level, right associativity,
   format "x  ←'  m ;  '/' k").
Notation "m ;;' k" := (bind m (λ _, k))
  (at level 100, right associativity).

(** A list display [[...]] or [list(...)]: a new object. *)
Definition alloc (v : list entry) : M loc :=
  λ st, let l := fresh (dom (heap st)) in
        inr (l, set_heap (<[l := v]> (heap st)) st).

(** Reading a list object. *)
Definition deref (l : loc) : M (list entry) :=
  λ st, match heap st !! l with
        | Some v => inr (v, st)
        | None => inl (OtherError "dangling reference")
        end.

(** [l.append(e)]: the object is changed in place. *)
Definition list_append (l : loc) (e : entry) : M unit :=
  λ st, match heap st !! l with
        | Some v => inr (tt, set_heap (<[l := v ++ [e]]> (heap st)) st)
        | None => inl (OtherError "dangling reference")
        end.

Definition record_op (o : session_op) : M unit :=
  λ st, inr (tt, add_op o st).

(** [session.get(key, default)] *)
Definition session_get (key : string) (default : loc) : M loc :=
  record_op (OpGet key) ;;'
  λ st, match session st with
        | DictSession d =>
            inr (match d !! key with Some l => l | None => default end, st)
        | ExternalSession d =>
            match d !! key with
            | Some v => alloc v st
            | None => inr (default, st)
            end
        end.

(** [key in session] *)
Definition session_contains (key : string) : M bool :=
  record_op (OpContains key) ;;'
  λ st, match session st with
        | DictSession d => inr (bool_decide (is_Some (d !! key)), st)
        | ExternalSession d => inr (bool_decide (is_Some (d !! key)), st)
        end.

(** [session.pop(key)], which raises [KeyError] on a missing key. *)
Definition session_pop (key : string) : M loc :=
  record_op (OpPop key) ;;'
  λ st, match session st with
        | DictSession d =>
            match d !! key with
            | Some l => inr (l, set_session (DictSession (delete key d)) st)
            | None => inl (KeyError key)
            end
        | ExternalSession d =>
            match d !! key with
            | Some v => alloc v (set_session (ExternalSession (delete key d)) st)
            | None => inl (KeyError key)
            end
        end.

(** [session[key] = value] *)
Definition session_setitem (key : string) (l : loc) : M unit :=
  v ←' deref l ;
  record_op (OpSetItem key v) ;;'
  λ st, match session st with
        | DictSession d =>
            inr (tt, set_session (DictSession (<[key := l]> d)) st)
        | ExternalSession d =>
            inr (tt, set_session (ExternalSession (<[key := v]> d)) st)
        end.

(** [message_flashed.send(app, message=message, category=category)] *)
Definition message_flashed_send (app : App) (message category : string) : M unit :=
  λ st, inr (tt, add_sent (app, message, category) st).

(** [flashes = session.get("_flashes", [])]
    [flashes.append((category, message))]
    [session["_flashes"] = flashes]
    [app = current_app._get_current_object()]
    [message_flashed.send(app, ..., message=message, category=category)] *)
Definition flash (message category : string) : M unit :=
  empty ←' alloc [] ;
  flashes ←' session_get flashes_key empty ;
  list_append flashes (category, message) ;;'
  session_setitem flashes_key flashes ;;'
  app ←' (λ st, inr (current_app st, st)) ;
  message_flashed_send app message category.

(** The original implementation quoted in the comment of [flash]:
    [session.setdefault('_flashes', []).append((category, message))]. *)
Definition session_setdefault (key : string) (default : loc) : M loc :=
  λ st, match session st with
        | DictSession d =>
            match d !! key with
            | Some l => inr (l, st)
            | None => inr (default, set_session (DictSession (<[key := default]> d)) st)
            end
        | ExternalSession d =>
            match d !! key with
            | Some v => alloc v st
            | None =>
                match heap st !! default with
                | Some v => inr (default, set_session (ExternalSession (<[key := v]> d)) st)
                | None => inl (OtherError "dangling reference")
                end
            end
        end.

Definition flash_original (message category : string) : M unit :=
  empty ←' alloc [] ;
  flashes ←' session_setdefault flashes_key empty ;
  list_append flashes (category, message).

(** What [get_flashed_messages] returns: [list[str]] or
    [list[tuple[str, str]]]. *)
Inductive messages :=
  | Texts (l : list string)
  | Pairs (l : list entry).

(** [if category_filter: flashes = list(filter(lambda f: f[0] in category_filter, flashes))]
    [if not with_categories: return [x[1] for x in flashes]]
    [return flashes] *)
Definition select (with_categories : bool) (category_filter : list string)
    (flashes : list entry) : messages :=
  let flashes :=
    match category_filter with
    | [] => flashes
    | _ :: _ => filter (λ f, f.1 ∈ category_filter) flashes
    end in
  if with_categories then Pairs flashes else Texts (flashes.*2).

(** [flashes = request_ctx.flashes]
    [if flashes is None:]
    [    flashes = session.pop("_flashes") if "_flashes" in session else []]
    [    request_ctx.flashes = flashes]
    followed by the selection above. *)
Definition get_flashed_messages (with_categories : bool)
    (category_filter : list string) : M messages :=
  cached ←' (λ st, inr (request_flashes st, st)) ;
  flashes ←'
    match cached with
    | Some l => ret l
    | None =>
        present ←' session_contains flashes_key ;
        l ←' (if present : bool then session_pop flashes_key else alloc []) ;
        (λ st, inr (tt, set_request_flashes (Some l) st)) ;;'
        ret l
    end ;
  content ←' deref flashes ;
  ret (select with_categories category_filter content).

(** Modelled from the spec: a new request starts with a new request
    context ([RequestContext] of [flask/ctx.py], not in this file), whose
    flash cache is empty; the session is carried over. *)
Definition new_request (st : state) : state := set_request_flashes None st.

(** What the session stores under a key. *)
Definition stored (key : string) (st : state) : option (list entry) :=
  match session st with
  | DictSession d => d !! key ≫= λ l, heap st !! l
  | ExternalSession d => d !! key
  end.

(** The content of the per-request cache. *)
Definition cached (st : state) : option (list entry) :=
  request_flashes st ≫= λ l, heap st !! l.

(** Every reference held by the session or by the request context is a
    list object of the heap. *)
Definition wf (st : state) : Prop :=
  (∀ d key l, session st = DictSession d → d !! key = Some l →
     is_Some (heap st !! l)) ∧
  (∀ l, request_flashes st = Some l → is_Some (heap st !! l)).

(** A run of requests that only flash. *)
Inductive action :=
  | DoFlash (message category : string)
  | NextRequest.

Fixpoint run (acts : list action) : M unit :=
  match acts with
  | [] => ret tt
  | DoFlash message category :: rest => flash message category ;;' run rest
  | NextRequest :: rest => λ st, run rest (new_request st)
  end.

Fixpoint flashed (acts : list action) : list entry :=
  match acts with
  | [] => []
  | DoFlash message category :: rest => (category, message) :: flashed rest
  | NextRequest :: rest => flashed rest
  end.


(** Running the operations symbolically. *)
Create HintDb flash_ops discriminated.
#[local] Hint Unfold bind ret alloc deref list_append record_op session_get
  session_contains session_pop session_setitem message_flashed_send
  add_op set_heap set_session set_request_flashes add_sent : flash_ops.
Ltac run := repeat (progress (autounfold with flash_ops; simpl)).

(** *** The heap and well-formed states *)

Lemma fresh_heap_None (h : gmap loc (list entry)) : h !! fresh (dom h) = None.
Proof. apply not_elem_of_dom, is_fresh. Qed.

Lemma fresh_heap_ne (h : gmap loc (list entry)) l :
  is_Some (h !! l) → l ≠ fresh (dom h).
Proof. intros [v Hv] ->. rewrite fresh_heap_None in Hv. discriminate. Qed.

Lemma bind_inr {A B} (m : M A) (k : A → M B) st a st' :
  m st = inr (a, st') → bind m k st = k a st'.
Proof. unfold bind. by intros ->. Qed.

Lemma bind_inl {A B} (m : M A) (k : A → M B) st e :
  m st = inl e → bind m k st = inl e.
Proof. unfold bind. by intros ->. Qed.

Lemma wf_new_request st : wf st → wf (new_request st).
Proof. intros [Hs _]. split; [exact Hs | intros l; discriminate]. Qed.

Lemma stored_new_request key st : stored key (new_request st) = stored key st.
Proof. reflexivity. Qed.

(** In a well-formed state a [dict] session stores something under a key
    exactly when the key is present. *)
Lemma stored_dict_None st d key :
  wf st → session st = DictSession d →
  stored key st = None → d !! key = None.
Proof.
  intros [Hs _] Hd. unfold stored. rewrite Hd.
  destruct (d !! key) as [l|] eqn:Hl; [|done]. simpl.
  destruct (Hs d key l Hd Hl) as [v ->]. discriminate.
Qed.

(** *** What [flash] does *)

Lemma flash_spec message category st :
  wf st →
  let old := default [] (stored flashes_key st) in
  ∃ st', flash message category st = inr (tt, st') ∧
    wf st' ∧
    stored flashes_key st' = Some (old ++ [(category, message)]) ∧
    ops st' = ops st ++
      [OpGet flashes_key; OpSetItem flashes_key (old ++ [(category, message)])] ∧
    sent st' = sent st ++ [(current_app st, message, category)] ∧
    request_flashes st' = request_flashes st ∧
    current_app st' = current_app st.
Proof.
  intros [Hs Hr] old. subst old.
  destruct st as [h s rf app snt os]; simpl in *.
  pose proof (fresh_heap_None h) as Hfresh.
  unfold flash.
  rewrite (bind_inr _ _ _ (fresh (dom h))
             (State (<[fresh (dom h) := []]> h) s rf app snt os)) by done.
  set (l0 := fresh (dom h)) in *.
  destruct s as [d|d].
  - (* a dict: [get] returns the stored object *)
    destruct (d !! flashes_key) as [l|] eqn:Hd.
    + destruct (Hs d flashes_key l eq_refl Hd) as [v Hv].
      assert (l ≠ l0) as Hne by (intros ->; congruence).
      unfold stored; simpl. rewrite Hd; simpl. rewrite Hv; simpl.
      eexists. split.
      { run.
        rewrite Hd. run. rewrite lookup_insert_ne by done. rewrite Hv.
        run. rewrite lookup_insert_eq. reflexivity. }
      split; [|split; [|split; [|done]]].
      * split; simpl.
        -- intros d' key l' [= <-] Hl'.
           destruct (decide (key = flashes_key)) as [->|Hkey].
           ++ rewrite lookup_insert_eq in Hl'. injection Hl' as <-.
              rewrite lookup_insert_eq. eauto.
           ++ rewrite lookup_insert_ne in Hl' by done.
              destruct (Hs d key l' eq_refl Hl') as [v' Hv'].
              destruct (decide (l = l')) as [->|?].
              ** rewrite lookup_insert_eq. eauto.
              ** rewrite !lookup_insert_ne by (done || (intros ->; congruence)).
                 eauto.
        -- intros l' ->. destruct (Hr l' eq_refl) as [v' Hv'].
           destruct (decide (l = l')) as [->|?].
           ++ rewrite lookup_insert_eq. eauto.
           ++ rewrite !lookup_insert_ne by (done || (intros ->; congruence)).
              eauto.
      * unfold stored; simpl. rewrite lookup_insert_eq. simpl.
        by rewrite lookup_insert_eq.
      * simpl. by rewrite <- app_assoc.
    + unfold stored; simpl. rewrite Hd; simpl.
      eexists. split.
      { run.
        rewrite Hd. run. rewrite lookup_insert_eq.
        run. rewrite lookup_insert_eq. reflexivity. }
      split; [|split; [|split; [|done]]].
      * split; simpl.
        -- intros d' key l' [= <-] Hl'.
           destruct (decide (key = flashes_key)) as [->|Hkey].
           ++ rewrite lookup_insert_eq in Hl'. injection Hl' as <-.
              rewrite lookup_insert_eq. eauto.
           ++ rewrite lookup_insert_ne in Hl' by done.
              destruct (Hs d key l' eq_refl Hl') as [v' Hv'].
              rewrite !lookup_insert_ne by (intros ->; congruence). eauto.
        -- intros l' ->. destruct (Hr l' eq_refl) as [v' Hv'].
           rewrite !lookup_insert_ne by (intros ->; congruence). eauto.
      * unfold stored; simpl. rewrite lookup_insert_eq. simpl.
        by rewrite lookup_insert_eq.
      * simpl. by rewrite <- app_assoc.
  - (* external storage: [get] returns a copy, assignment stores a copy *)
    assert (∀ h' : gmap loc (list entry),
              (∀ l v, h !! l = Some v → is_Some (h' !! l)) →
              ∀ d' sn so, wf (State h' (ExternalSession d') rf app sn so))
      as Hwf.
    { intros h' Hh' d' sn so. split; simpl; [discriminate|].
      intros l ->. destruct (Hr l eq_refl) as [v Hv]. eauto. }
    destruct (d !! flashes_key) as [v|] eqn:Hd.
    + unfold stored; simpl. rewrite Hd; simpl.
      pose proof (fresh_heap_None (<[l0 := []]> h)) as Hfresh1.
      eexists. split.
      { run.
        rewrite Hd. run. rewrite lookup_insert_eq.
        run. rewrite lookup_insert_eq. reflexivity. }
      split; [|split; [|split; [|done]]].
      * simpl. apply Hwf. intros l v' Hl.
        assert (l ≠ l0) by (intros ->; congruence).
        assert (l ≠ fresh (dom (<[l0 := []]> h))).
        { intros ->. rewrite lookup_insert_ne in Hfresh1 by done. congruence. }
        rewrite !lookup_insert_ne by done. eauto.
      * unfold stored; simpl. by rewrite lookup_insert_eq.
      * simpl. by rewrite <- app_assoc.
    + unfold stored; simpl. rewrite Hd; simpl.
      eexists. split.
      { run.
        rewrite Hd. run. rewrite lookup_insert_eq.
        run. rewrite lookup_insert_eq. reflexivity. }
      split; [|split; [|split; [|done]]].
      * simpl. apply Hwf. intros l v' Hl.
        rewrite !lookup_insert_ne by (intros ->; congruence). eauto.
      * unfold stored; simpl. by rewrite lookup_insert_eq.
      * simpl. by rewrite <- app_assoc.
Qed.

(** *** What [get_flashed_messages] does *)

(** The first call of a request drains the session into the cache. *)
Lemma get_flashed_messages_first with_categories category_filter st :
  wf st → request_flashes st = None →
  let batch := default [] (stored flashes_key st) in
  ∃ st', get_flashed_messages with_categories category_filter st
           = inr (select with_categories category_filter batch, st') ∧
    wf st' ∧
    stored flashes_key st' = None ∧
    cached st' = Some batch ∧
    sent st' = sent st.
Proof.
  intros [Hs Hr] Hnone batch. subst batch.
  destruct st as [h s rf app snt os]; simpl in *. subst rf.
  pose proof (fresh_heap_None h) as Hfresh.
  unfold get_flashed_messages, stored; simpl.
  destruct s as [d|d]; destruct (d !! flashes_key) as [x|] eqn:Hd; simpl.
  - destruct (Hs d flashes_key x eq_refl Hd) as [v Hv]. rewrite Hv; simpl.
    eexists. split.
    { repeat first [progress run | rewrite Hd | rewrite Hv]. reflexivity. }
    split; [|split; [|split; [|done]]].
    + split; simpl.
      * intros d' key l [= <-] Hl. apply lookup_delete_Some in Hl as [_ Hl].
        eauto.
      * intros l [= <-]. eauto.
    + unfold stored; simpl. by rewrite lookup_delete_eq.
    + unfold cached; simpl. done.
  - eexists. split.
    { repeat first [progress run | rewrite Hd | rewrite lookup_insert_eq
                    | rewrite bool_decide_eq_false_2 by apply is_Some_None].
      reflexivity. }
    split; [|split; [|split; [|done]]].
    + split; simpl.
      * intros d' key l [= <-] Hl. destruct (Hs d key l eq_refl Hl) as [v Hv].
        rewrite lookup_insert_ne by congruence. eauto.
      * intros l [= <-]. rewrite lookup_insert_eq. eauto.
    + unfold stored; simpl. by rewrite Hd.
    + unfold cached; simpl. by rewrite lookup_insert_eq.
  - eexists. split.
    { repeat first [progress run | rewrite Hd | rewrite lookup_insert_eq].
      reflexivity. }
    split; [|split; [|split; [|done]]].
    + split; simpl; [discriminate|].
      intros l [= <-]. rewrite lookup_insert_eq. eauto.
    + unfold stored; simpl. by rewrite lookup_delete_eq.
    + unfold cached; simpl. by rewrite lookup_insert_eq.
  - eexists. split.
    { repeat first [progress run | rewrite Hd | rewrite lookup_insert_eq
                    | rewrite bool_decide_eq_false_2 by apply is_Some_None].
      reflexivity. }
    split; [|split; [|split; [|done]]].
    + split; simpl; [discriminate|].
      intros l [= <-]. rewrite lookup_insert_eq. eauto.
    + unfold stored; simpl. by rewrite Hd.
    + unfold cached; simpl. by rewrite lookup_insert_eq.
Qed.

(** A later call of the same request reads the cache and changes
    nothing. *)
Lemma get_flashed_messages_cached with_categories category_filter st batch :
  cached st = Some batch →
  get_flashed_messages with_categories category_filter st
    = inr (select with_categories category_filter batch, st).
Proof.
  unfold cached. destruct st as [h s rf app snt os]; simpl.
  destruct rf as [l|]; simpl; [|discriminate]. intros Hl.
  unfold get_flashed_messages. run. by rewrite Hl.
Qed.

Lemma select_unfiltered with_categories batch :
  select with_categories [] batch
    = if with_categories then Pairs batch else Texts batch.*2.
Proof. reflexivity. Qed.

Lemma select_filtered with_categories category_filter batch :
  category_filter ≠ [] →
  select with_categories category_filter batch
    = let chosen := filter (λ f, f.1 ∈ category_filter) batch in
      if with_categories then Pairs chosen else Texts chosen.*2.
Proof. unfold select. by destruct category_filter. Qed.

(** *** Runs of flashing requests *)

Lemma run_spec acts : ∀ st,
  wf st →
  ∃ st', run acts st = inr (tt, st') ∧
    wf st' ∧
    default [] (stored flashes_key st')
      = default [] (stored flashes_key st) ++ flashed acts.
Proof.
  induction acts as [|[message category|] rest IH]; intros st Hwf; simpl.
  - exists st. split; [done|]. split; [done|]. by rewrite app_nil_r.
  - destruct (flash_spec message category st Hwf)
      as (st1 & Hrun & Hwf1 & Hstored & _).
    destruct (IH st1 Hwf1) as (st' & Hrest & Hwf' & Hstored').
    exists st'. split; [|split; [done|]].
    + by rewrite (bind_inr _ _ _ _ _ Hrun).
    + rewrite Hstored', Hstored. simpl. by rewrite <- app_assoc.
  - destruct (IH (new_request st) (wf_new_request st Hwf))
      as (st' & Hrest & Hwf' & Hstored').
    exists st'. by rewrite stored_new_request in Hstored'.
Qed.

(** The sequence a call of [get_flashed_messages] reads: the cache when
    the request has one, and what the session stores otherwise. *)
Definition pending (st : state) : list entry :=
  match cached st with
  | Some batch => batch
  | None => default [] (stored flashes_key st)
  end.

Lemma get_flashed_messages_pending with_categories category_filter st :
  wf st →
  ∃ st', get_flashed_messages with_categories category_filter st
           = inr (select with_categories category_filter (pending st), st').
Proof.
  intros Hwf. unfold pending.
  destruct (cached st) as [batch|] eqn:Hc.
  - exists st. by apply get_flashed_messages_cached.
  - assert (request_flashes st = None) as Hnone.
    { destruct Hwf as [_ Hr]. unfold cached in Hc.
      destruct (request_flashes st) as [l|]; [|done].
      destruct (Hr l eq_refl) as [v Hv]. simpl in Hc. congruence. }
    destruct (get_flashed_messages_first with_categories category_filter
                st Hwf Hnone) as (st' & Hrun & _).
    eauto.
Qed.

(** C1. After any run of requests that flash N entries into a session
    with no stored flashes, the first read of the next request returns
    the N entries in the order of the calls (as pairs, or their texts)
    and removes them from the session; a second read in that request
    returns the same and changes nothing; a read in the request after
    returns the empty list. *)
Theorem flash_batch_delivered_once (st : state) (acts : list action)
    (with_categories : bool) :
  wf st → stored flashes_key st = None →
  let all := if with_categories then Pairs (flashed acts)
             else Texts (flashed acts).*2 in
  let none := if with_categories then Pairs [] else Texts [] in
  ∃ st1 st2 st3,
    run acts st = inr (tt, st1) ∧
    get_flashed_messages with_categories [] (new_request st1) = inr (all, st2) ∧
    stored flashes_key st2 = None ∧
    get_flashed_messages with_categories [] st2 = inr (all, st2) ∧
    get_flashed_messages with_categories [] (new_request st2) = inr (none, st3).
Proof.
  intros Hwf Hempty all none.
  destruct (run_spec acts st Hwf) as (st1 & Hrun & Hwf1 & Hstored1).
  rewrite Hempty in Hstored1. simpl in Hstored1.
  destruct (get_flashed_messages_first with_categories [] (new_request st1)
              (wf_new_request _ Hwf1) eq_refl)
    as (st2 & Hfirst & Hwf2 & Hgone & Hcache & _).
  rewrite stored_new_request, Hstored1, select_unfiltered in Hfirst.
  rewrite stored_new_request, Hstored1 in Hcache.
  destruct (get_flashed_messages_first with_categories [] (new_request st2)
              (wf_new_request _ Hwf2) eq_refl)
    as (st3 & Hnext & _).
  rewrite stored_new_request, Hgone, select_unfiltered in Hnext.
  exists st1, st2, st3. split; [done|]. split; [done|]. split; [done|].
  split; [|by destruct with_categories].
  rewrite (get_flashed_messages_cached _ _ _ _ Hcache).
  by rewrite select_unfiltered.
Qed.

(** C5. With a non-empty [category_filter], [get_flashed_messages]
    returns exactly the pending entries whose category is one of the
    filter's, in their original relative order (as pairs, or their
    texts). *)
Theorem category_filter_selects (st : state) (with_categories : bool)
    (category_filter : list string) :
  wf st → category_filter ≠ [] →
  ∃ chosen st',
    get_flashed_messages with_categories category_filter st
      = inr (if with_categories then Pairs chosen else Texts chosen.*2, st') ∧
    chosen = filter (λ f, f.1 ∈ category_filter) (pending st) ∧
    chosen `sublist_of` pending st ∧
    ∀ f, f ∈ chosen ↔ f ∈ pending st ∧ f.1 ∈ category_filter.
Proof.
  intros Hwf Hfilter.
  destruct (get_flashed_messages_pending with_categories category_filter st Hwf)
    as (st' & Hrun).
  rewrite select_filtered in Hrun by done. simpl in Hrun.
  eexists _, st'. split; [exact Hrun|]. split; [done|]. split.
  - apply sublist_filter.
  - intros f. rewrite list_elem_of_filter. tauto.
Qed.

(** C8. [flash] reads the stored sequence (empty when there is none),
    appends the pair and assigns the whole sequence back under the
    reserved key, so that the session stores it whether or not it keeps
    the objects it hands out; and it sends one notification with the
    application, the message and the category. *)
Theorem flash_read_modify_write (st : state) (message category : string) :
  wf st →
  let old := default [] (stored flashes_key st) in
  ∃ st', flash message category st = inr (tt, st') ∧
    stored flashes_key st' = Some (old ++ [(category, message)]) ∧
    ops st' = ops st ++
      [OpGet flashes_key; OpSetItem flashes_key (old ++ [(category, message)])] ∧
    sent st' = sent st ++ [(current_app st, message, category)].
Proof.
  intros Hwf old.
  destruct (flash_spec message category st Hwf)
    as (st' & Hrun & _ & Hstored & Hops & Hsent & _).
  exists st'. split; [exact Hrun|]. split; [exact Hstored|]. by split.
Qed.

(** C10. The call that drains the session caches the whole drained
    sequence, whatever its own arguments: every later call of the
    request selects from all of it. *)
Theorem cache_holds_full_batch (st : state) (with_categories : bool)
    (category_filter : list string) :
  wf st → request_flashes st = None →
  let batch := default [] (stored flashes_key st) in
  ∃ r st',
    get_flashed_messages with_categories category_filter st = inr (r, st') ∧
    cached st' = Some batch ∧
    get_flashed_messages true [] st' = inr (Pairs batch, st') ∧
    ∀ with_categories' category_filter',
      get_flashed_messages with_categories' category_filter' st'
        = inr (select with_categories' category_filter' batch, st').
Proof.
  intros Hwf Hnone batch.
  destruct (get_flashed_messages_first with_categories category_filter
              st Hwf Hnone) as (st' & Hrun & _ & _ & Hcache & _).
  eexists _, st'. split; [exact Hrun|]. split; [exact Hcache|]. split.
  - by rewrite (get_flashed_messages_cached _ _ _ _ Hcache).
  - intros wc cf. by apply get_flashed_messages_cached.
Qed.

(** The original implementation, on a session that keeps its values in
    external storage: the entry is appended to a copy, and the session
    stores what it stored before (or the empty list). *)
Lemma flash_original_external_lost message category st d :
  session st = ExternalSession d →
  ∃ st', flash_original message category st = inr (tt, st') ∧
    stored flashes_key st' = Some (default [] (d !! flashes_key)).
Proof.
  destruct st as [h s rf app snt os]; simpl. intros ->.
  unfold flash_original, session_setdefault.
  destruct (d !! flashes_key) as [v|] eqn:Hd; simpl.
  - eexists. split.
    { repeat first [progress run | rewrite Hd | rewrite lookup_insert_eq].
      reflexivity. }
    unfold stored; simpl. done.
  - eexists. split.
    { repeat first [progress run | rewrite Hd | rewrite lookup_insert_eq].
      reflexivity. }
    unfold stored; simpl. by rewrite lookup_insert_eq.
Qed.

(** *** Further properties of the queue *)

Lemma run_sent acts : ∀ st,
  wf st →
  ∃ st', run acts st = inr (tt, st') ∧
    current_app st' = current_app st ∧
    sent st' = sent st ++ map (λ f, (current_app st, f.2, f.1)) (flashed acts).
Proof.
  induction acts as [|[message category|] rest IH]; intros st Hwf; simpl.
  - exists st. by rewrite app_nil_r.
  - destruct (flash_spec message category st Hwf)
      as (st1 & Hrun & Hwf1 & _ & _ & Hsent & _ & Happ).
    destruct (IH st1 Hwf1) as (st' & Hrest & Happ' & Hsent').
    exists st'. split; [|split].
    + by rewrite (bind_inr _ _ _ _ _ Hrun).
    + congruence.
    + rewrite Hsent', Hsent, Happ. by rewrite <- app_assoc.
  - destruct (IH (new_request st) (wf_new_request st Hwf))
      as (st' & Hrest & Happ' & Hsent').
    exists st'. done.
Qed.

(** X7. A run of flashing requests sends one notification per call of
    [flash], in call order, each with the current application, the
    message and the category of that call. *)
Theorem run_notifies_each_flash (st : state) (acts : list action) :
  wf st →
  ∃ st', run acts st = inr (tt, st') ∧
    sent st' = sent st ++ map (λ f, (current_app st, f.2, f.1)) (flashed acts) ∧
    length (sent st') = length (sent st) + length (flashed acts).
Proof.
  intros Hwf. destruct (run_sent acts st Hwf) as (st' & Hrun & _ & Hsent).
  exists st'. split; [exact Hrun|]. split; [exact Hsent|].
  by rewrite Hsent, length_app, length_map.
Qed.

(** With nothing stored under the key, [flash] works on a new list and
    leaves the request's cache as it is. *)
Lemma flash_keeps_cache message category st st' :
  wf st → stored flashes_key st = None →
  flash message category st = inr (tt, st') →
  cached st' = cached st.
Proof.
  intros Hwf Hstored.
  pose proof Hwf as [Hs Hr].
  destruct st as [h s rf app snt os]; simpl in *.
  pose proof (fresh_heap_None h) as Hfresh.
  assert (∀ l v, rf = Some l →
            <[fresh (dom h) := v]> h !! l = h !! l) as Hkeep.
  { intros l v Hl. destruct (Hr l Hl) as [v' Hv'].
    rewrite lookup_insert_ne by congruence. done. }
  unfold flash.
  rewrite (bind_inr _ _ _ (fresh (dom h))
             (State (<[fresh (dom h) := []]> h) s rf app snt os)) by done.
  destruct s as [d|d].
  - pose proof (stored_dict_None _ d flashes_key Hwf eq_refl Hstored) as Hd.
    repeat first [progress run | rewrite Hd | rewrite lookup_insert_eq].
    intros [= <-]. unfold cached; simpl.
    destruct rf as [l|]; [simpl|done].
    rewrite insert_insert_eq. by apply Hkeep.
  - unfold stored in Hstored; simpl in Hstored.
    repeat first [progress run | rewrite Hstored | rewrite lookup_insert_eq].
    intros [= <-]. unfold cached; simpl.
    destruct rf as [l|]; [simpl|done].
    rewrite insert_insert_eq. by apply Hkeep.
Qed.

(** X8. An entry flashed after the request has read its messages is
    not seen by later reads of that request, which keep returning the
    batch read first; it is delivered to the next request. *)
Theorem flash_after_read_is_deferred (st : state) (with_categories : bool)
    (message category : string) :
  wf st → request_flashes st = None →
  let batch := default [] (stored flashes_key st) in
  ∃ r st1 st2 st3,
    get_flashed_messages with_categories [] st = inr (r, st1) ∧
    flash message category st1 = inr (tt, st2) ∧
    get_flashed_messages true [] st2 = inr (Pairs batch, st2) ∧
    get_flashed_messages true [] (new_request st2)
      = inr (Pairs [(category, message)], st3).
Proof.
  intros Hwf Hnone batch.
  destruct (get_flashed_messages_first with_categories [] st Hwf Hnone)
    as (st1 & Hread & Hwf1 & Hgone & Hcache & _).
  destruct (flash_spec message category st1 Hwf1)
    as (st2 & Hflash & Hwf2 & Hstored & _).
  rewrite Hgone in Hstored. simpl in Hstored.
  pose proof (flash_keeps_cache _ _ _ _ Hwf1 Hgone Hflash) as Hcache2.
  rewrite Hcache in Hcache2.
  destruct (get_flashed_messages_first true [] (new_request st2)
              (wf_new_request _ Hwf2) eq_refl) as (st3 & Hnext & _).
  rewrite stored_new_request, Hstored in Hnext. simpl in Hnext.
  eexists _, st1, st2, st3. split; [exact Hread|]. split; [exact Hflash|].
  split; [|exact Hnext].
  by rewrite (get_flashed_messages_cached _ _ _ _ Hcache2).
Qed.

(** X9. Reading when nothing was flashed returns the empty list for
    every choice of arguments; the session only gets a membership test
    (no [pop], so no [KeyError]) and is left as it was, and the request
    caches the empty list. *)
Theorem read_with_nothing_flashed (st : state) (with_categories : bool)
    (category_filter : list string) :
  wf st → request_flashes st = None → stored flashes_key st = None →
  ∃ st',
    get_flashed_messages with_categories category_filter st
      = inr (if with_categories then Pairs [] else Texts [], st') ∧
    ops st' = ops st ++ [OpContains flashes_key] ∧
    session st' = session st ∧
    cached st' = Some [].
Proof.
  intros Hwf Hnone Hstored.
  destruct st as [h s rf app snt os]; simpl in *. subst rf.
  assert (∀ l : list entry, l = [] →
            select with_categories category_filter l
              = if with_categories then Pairs [] else Texts []) as Hsel.
  { intros l ->. unfold select. by destruct category_filter, with_categories. }
  unfold get_flashed_messages.
  destruct s as [d|d].
  - pose proof (stored_dict_None _ d flashes_key Hwf eq_refl Hstored) as Hd.
    eexists. split.
    { repeat first [progress run | rewrite Hd | rewrite lookup_insert_eq
                    | rewrite bool_decide_eq_false_2 by apply is_Some_None].
      rewrite Hsel by done. reflexivity. }
    unfold cached; simpl. by rewrite lookup_insert_eq.
  - unfold stored in Hstored; simpl in Hstored.
    eexists. split.
    { repeat first [progress run | rewrite Hstored | rewrite lookup_insert_eq
                    | rewrite bool_decide_eq_false_2 by apply is_Some_None].
      rewrite Hsel by done. reflexivity. }
    unfold cached; simpl. by rewrite lookup_insert_eq.
Qed.

End WithApp.

(** *** Concrete sessions *)

(** A fresh state of the application "shop": nothing allocated, an
    empty session, no request cache. *)
Definition fresh_state (s : session_store) : state (App := string) :=
  State ∅ s None "shop" [] [].

Lemma wf_fresh_dict : wf (fresh_state (DictSession ∅)).
Proof.
  split; simpl; [|discriminate].
  intros d key l [= <-] Hl. by rewrite lookup_empty in Hl.
Qed.

Lemma wf_fresh_external : wf (fresh_state (ExternalSession ∅)).
Proof. split; simpl; discriminate. Qed.

(** A state in which three entries wait in a [dict] session. *)
Definition three_waiting : state (App := string) :=
  State {[ 0 := [("a", "first"); ("b", "second"); ("a", "third")] ]}
        (DictSession {[ flashes_key := 0 ]}) None "shop" [] [].

Lemma wf_three_waiting : wf three_waiting.
Proof.
  split; simpl; [|discriminate].
  intros d key l [= <-] Hl.
  apply lookup_singleton_Some in Hl as [_ <-].
  rewrite lookup_singleton_eq. eauto.
Qed.

(** The example of the specification: categories a, b, a filtered by a. *)
Example filter_a_b_a :
  ∃ st',
    get_flashed_messages true ["a"] three_waiting
      = inr (Pairs [("a", "first"); ("a", "third")], st') ∧
    get_flashed_messages false ["b"] st' = inr (Texts ["second"], st').
Proof. eexists. split; reflexivity. Qed.

(** The two implementations on external storage: after two calls the
    session holds both entries, or none. *)
Example flash_twice_external :
  ∃ st',
    bind (flash "saved" "info") (λ _, flash "quota low" "warning")
      (fresh_state (ExternalSession ∅)) = inr (tt, st') ∧
    stored flashes_key st' = Some [("info", "saved"); ("warning", "quota low")].
Proof. eexists. split; reflexivity. Qed.

Example flash_original_twice_external :
  ∃ st',
    bind (flash_original "saved" "info")
         (λ _, flash_original "quota low" "warning")
      (fresh_state (ExternalSession ∅)) = inr (tt, st') ∧
    stored flashes_key st' = Some [].
Proof. eexists. split; reflexivity. Qed.

(** The theorem of C1 for two entries flashed in two requests. *)
Lemma flash_batch_delivered_once_witness :
  let st := fresh_state (DictSession ∅) in
  let acts := [DoFlash "saved" "info"; NextRequest; DoFlash "quota low" "warning"] in
  let all := Pairs [("info", "saved"); ("warning", "quota low")] in
  ∃ st1 st2 st3,
    run acts st = inr (tt, st1) ∧
    get_flashed_messages true [] (new_request st1) = inr (all, st2) ∧
    stored flashes_key st2 = None ∧
    get_flashed_messages true [] st2 = inr (all, st2) ∧
    get_flashed_messages true [] (new_request st2) = inr (Pairs [], st3).
Proof.
  intros st acts all.
  exact (flash_batch_delivered_once st acts true wf_fresh_dict eq_refl).
Defined.

(** The theorem of C5 for the three waiting entries. *)
Lemma category_filter_selects_witness :
  ∃ chosen st',
    get_flashed_messages false ["a"] three_waiting
      = inr (Texts chosen.*2, st') ∧
    chosen = filter (λ f, f.1 ∈ ["a"]) (pending three_waiting) ∧
    chosen `sublist_of` pending three_waiting ∧
    ∀ f, f ∈ chosen ↔ f ∈ pending three_waiting ∧ f.1 ∈ ["a"].
Proof.
  apply (category_filter_selects three_waiting false ["a"] wf_three_waiting).
  discriminate.
Defined.

(** The theorem of C8 for a first flash into external storage. *)
Lemma flash_read_modify_write_witness :
  let st := fresh_state (ExternalSession ∅) in
  ∃ st', flash "saved" "info" st = inr (tt, st') ∧
    stored flashes_key st' = Some [("info", "saved")] ∧
    ops st' = [OpGet flashes_key; OpSetItem flashes_key [("info", "saved")]] ∧
    sent st' = [("shop", "saved", "info")].
Proof.
  intros st.
  exact (flash_read_modify_write st "saved" "info" wf_fresh_external).
Defined.

(** The theorem of C10 for a first call that filters and drops the
    categories. *)
Lemma cache_holds_full_batch_witness :
  let batch := [("a", "first"); ("b", "second"); ("a", "third")] in
  ∃ r st',
    get_flashed_messages false ["b"] three_waiting = inr (r, st') ∧
    cached st' = Some batch ∧
    get_flashed_messages true [] st' = inr (Pairs batch, st') ∧
    ∀ with_categories' category_filter',
      get_flashed_messages with_categories' category_filter' st'
        = inr (select with_categories' category_filter' batch, st').
Proof.
  intros batch.
  exact (cache_holds_full_batch three_waiting false ["b"] wf_three_waiting eq_refl).
Defined.

(** X7 for two entries flashed in two requests. *)
Lemma run_notifies_each_flash_witness :
  let st := fresh_state (ExternalSession ∅) in
  let acts := [DoFlash "saved" "info"; NextRequest; DoFlash "quota low" "warning"] in
  ∃ st', run acts st = inr (tt, st') ∧
    sent st' = [("shop", "saved", "info"); ("shop", "quota low", "warning")] ∧
    length (sent st') = 2.
Proof.
  intros st acts.
  exact (run_notifies_each_flash st acts wf_fresh_external).
Defined.

(** X8 for an entry flashed after the three waiting ones were read. *)
Lemma flash_after_read_is_deferred_witness :
  ∃ r st1 st2 st3,
    get_flashed_messages false [] three_waiting = inr (r, st1) ∧
    flash "late" "info" st1 = inr (tt, st2) ∧
    get_flashed_messages true [] st2
      = inr (Pairs [("a", "first"); ("b", "second"); ("a", "third")], st2) ∧
    get_flashed_messages true [] (new_request st2)
      = inr (Pairs [("info", "late")], st3).
Proof.
  exact (flash_after_read_is_deferred three_waiting false "late" "info"
           wf_three_waiting eq_refl).
Defined.

(** X9 for a fresh session. *)
Lemma read_with_nothing_flashed_witness :
  let st := fresh_state (DictSession ∅) in
  ∃ st',
    get_flashed_messages false ["error"] st = inr (Texts [], st') ∧
    ops st' = [OpContains flashes_key] ∧
    session st' = DictSession ∅ ∧
    cached st' = Some [].
Proof.
  intros st.
  exact (read_with_nothing_flashed st false ["error"] wf_fresh_dict eq_refl eq_refl).
Defined.

End Flash.

(** ** Root-path discovery ([get_root_path]) *)

Module RootPath.

(** A module object, as far as [get_root_path] looks at it: its
    [__file__] when the attribute exists and is not [None]. *)
Record module := Module_ {
  mod_file : option string
}.

(** A loader; [loader_get_filename] is its [get_filename] method when
    [hasattr(loader, "get_filename")]. *)
Record loader := Loader {
  loader_get_filename : option (string → exn + string)
}.

(** A module spec: its [loader] attribute, which may be [None]. *)
Record module_spec := ModuleSpec {
  spec_loader : option loader
}.

(** [sys.modules] and the current working directory. *)
Record env := Env {
  sys_modules : gmap string module;
  cwd : string
}.

(** [repr] of a module name (names need no escapes). *)
Definition repr (s : string) : string := "'" +:+ s +:+ "'".

Definition no_root_path_msg (import_name : string) : string :=
  "No root path can be found for the provided module " +:+ repr import_name
  +:+ ". This can happen because the module came from an import hook that does not provide file name information or because it's a namespace package. In this case the root path needs to be explicitly provided.".

Section WithImportSystem.

(** The standard library the function calls.
    [importlib.util.find_spec] imports the parent packages of a dotted
    name, and [__import__] runs the module, so both change the
    interpreter: they return the environment they leave, also when they
    raise.  [os.path.abspath] takes the working directory and a path;
    [os.path.dirname] a path. *)
Variable find_spec : env → string → (exn + option module_spec) * env.
Variable import_module : string → env → option exn * env.
Variable abspath : string → string → string.
Variable dirname : string → string.

(** Lines 573-581: the [try] around [find_spec]; a spec of [None]
    raises [ValueError], and [ImportError] and [ValueError] leave
    [loader = None]; any other exception propagates. *)
Definition find_loader (import_name : string) (e : env)
  : (exn + option loader) * env :=
  let '(found, e1) := find_spec e import_name in
  (match found with
   | inr (Some spec) => inr (spec_loader spec)
   | inr None => inr None
   | inl (ImportError _) => inr None
   | inl ValueError => inr None
   | inl other => inl other
   end, e1).

Definition get_root_path (import_name : string) (e : env)
  : (exn + string) * env :=
  (* Module already imported and has a file attribute. Use that first. *)
  match sys_modules e !! import_name ≫= mod_file with
  | Some file => (inr (dirname (abspath (cwd e) file)), e)
  | None =>
      (* Next attempt: check the loader. *)
      let '(found, e1) := find_loader import_name e in
      match found with
      | inl err => (inl err, e1)
      | inr None => (inr (cwd e1), e1)                  (* [os.getcwd()] *)
      | inr (Some ld) =>
          match loader_get_filename ld with
          | Some get_filename =>
              match get_filename import_name with
              | inl err => (inl err, e1)
              | inr filepath => (inr (dirname (abspath (cwd e1) filepath)), e1)
              end
          | None =>
              (* Fall back to imports. *)
              let '(raised, e2) := import_module import_name e1 in
              match raised with
              | Some err => (inl err, e2)
              | None =>
                  match sys_modules e2 !! import_name with
                  | None => (inl (KeyError import_name), e2)
                  | Some m =>
                      match mod_file m with
                      | None =>
                          (inl (RuntimeError (no_root_path_msg import_name)), e2)
                      | Some filepath =>
                          (inr (dirname (abspath (cwd e2) filepath)), e2)
                      end
                  end
              end
          end
      end
  end.

(** What [find_spec] answers when no loader exists for a name: no spec,
    a spec whose loader is [None], or a failure of the lookup with
    [ImportError] or [ValueError]. *)
Definition no_loader_found (answer : exn + option module_spec) : Prop :=
  match answer with
  | inr None => True
  | inr (Some spec) => spec_loader spec = None
  | inl (ImportError _) => True
  | inl ValueError => True
  | inl _ => False
  end.

(** C7. For a module that is already imported and has a file, the root
    path is the directory of that file's absolute path, and the import
    system is not consulted; for a name that is not in [sys.modules] and
    for which [find_spec] finds no loader (no spec, a spec without
    loader, [ImportError] or [ValueError]), it is the current working
    directory. *)
Theorem get_root_path_imported_or_cwd (import_name : string) (e : env) :
  (∀ m file, sys_modules e !! import_name = Some m → mod_file m = Some file →
     get_root_path import_name e = (inr (dirname (abspath (cwd e) file)), e)) ∧
  (∀ answer e1, sys_modules e !! import_name = None →
     find_spec e import_name = (answer, e1) → no_loader_found answer →
     get_root_path import_name e = (inr (cwd e1), e1)).
Proof.
  unfold get_root_path. split.
  - intros m file -> Hfile. simpl. by rewrite Hfile.
  - intros answer e1 -> Hspec Hnone. simpl.
    unfold find_loader. rewrite Hspec.
    destruct answer as [[]|[spec|]]; simpl in Hnone; try done.
    by rewrite Hnone.
Qed.

End WithImportSystem.

(** X10. A module that had to be imported is remembered: when the
    loader has no [get_filename] and the forced import registers the
    module with a file, the call returns the directory of that file, and
    a further call in the environment it leaves returns the same
    directory from [sys.modules], whatever the import system would
    answer by then. *)
Theorem forced_import_is_remembered
    (find_spec find_spec' : env → string → (exn + option module_spec) * env)
    (import_module import_module' : string → env → option exn * env)
    (abspath : string → string → string) (dirname : string → string)
    (import_name : string) (e e1 e2 : env) (spec : module_spec) (ld : loader)
    (m : module) (file : string) :
  sys_modules e !! import_name ≫= mod_file = None →
  find_spec e import_name = (inr (Some spec), e1) →
  spec_loader spec = Some ld → loader_get_filename ld = None →
  import_module import_name e1 = (None, e2) →
  sys_modules e2 !! import_name = Some m → mod_file m = Some file →
  let root := dirname (abspath (cwd e2) file) in
  get_root_path find_spec import_module abspath dirname import_name e
    = (inr root, e2) ∧
  get_root_path find_spec' import_module' abspath dirname import_name e2
    = (inr root, e2).
Proof.
  intros Hnew Hspec Hld Hplain Himport Hm Hfile root. subst root.
  unfold get_root_path, find_loader. split.
  - rewrite Hnew, Hspec, Hld, Hplain, Himport, Hm, Hfile. done.
  - rewrite Hm. simpl. by rewrite Hfile.
Qed.

(** *** A POSIX instance *)

(** [posixpath.dirname]: everything up to the last slash, with the
    trailing slashes removed unless nothing but slashes is left. *)
Fixpoint drop_until_slash (rev_path : list ascii) : list ascii :=
  match rev_path with
  | [] => []
  | c :: rest => if decide (c = "/"%char) then rev_path else drop_until_slash rest
  end.

Fixpoint strip_slashes (rev_path : list ascii) : list ascii :=
  match rev_path with
  | [] => []
  | c :: rest => if decide (c = "/"%char) then strip_slashes rest else rev_path
  end.

Definition posix_dirname (path : string) : string :=
  let rev_head := drop_until_slash (reverse (list_ascii_of_string path)) in
  let rev_head :=
    if forallb (λ c, bool_decide (c = "/"%char)) rev_head
    then rev_head else strip_slashes rev_head in
  string_of_list_ascii (reverse rev_head).

(** [path.split("/")] *)
Fixpoint split_slash (path : string) : list string :=
  match path with
  | EmptyString => [EmptyString]
  | String c rest =>
      if decide (c = "/"%char) then EmptyString :: split_slash rest
      else match split_slash rest with
           | comp :: comps => String c comp :: comps
           | [] => [String c EmptyString]
           end
  end.

(** ["/".join(comps)] *)
Fixpoint join_slash (comps : list string) : string :=
  match comps with
  | [] => ""
  | [comp] => comp
  | comp :: rest => comp +:+ "/" +:+ join_slash rest
  end.

(** The number of leading slashes [normpath] keeps: two when the path
    starts with exactly two, otherwise one, and none for a relative
    path. *)
Definition initial_slashes (path : string) : nat :=
  match path with
  | String "/" (String "/" (String "/" _)) => 1
  | String "/" (String "/" _) => 2
  | String "/" _ => 1
  | _ => 0
  end.

(** The loop of [posixpath.normpath]; [new_comps] is kept last
    component first. *)
Fixpoint norm_comps (initial : nat) (comps new_comps : list string)
  : list string :=
  match comps with
  | [] => reverse new_comps
  | comp :: rest =>
      if decide (comp = "" ∨ comp = ".") then norm_comps initial rest new_comps
      else if decide (comp ≠ ".." ∨ (initial = 0 ∧ new_comps = [])
                      ∨ head new_comps = Some "..")
      then norm_comps initial rest (comp :: new_comps)
      else norm_comps initial rest (tail new_comps)
  end.

Definition posix_normpath (path : string) : string :=
  match path with
  | EmptyString => "."
  | _ =>
      let initial := initial_slashes path in
      let joined := join_slash (norm_comps initial (split_slash path) []) in
      let result :=
        match initial with
        | 0 => joined
        | 1 => "/" +:+ joined
        | _ => "//" +:+ joined
        end in
      match result with EmptyString => "." | _ => result end
  end.

Fixpoint ends_with_slash (path : string) : bool :=
  match path with
  | EmptyString => false
  | String c EmptyString => bool_decide (c = "/"%char)
  | String _ rest => ends_with_slash rest
  end.

(** [posixpath.join] of two paths. *)
Definition posix_join (a b : string) : string :=
  match b with
  | String "/" _ => b
  | _ =>
      match a with
      | EmptyString => b
      | _ => if ends_with_slash a then a +:+ b else a +:+ "/" +:+ b
      end
  end.

(** [posixpath.abspath] in working directory [cwd]. *)
Definition posix_abspath (cwd path : string) : string :=
  posix_normpath
    (match path with
     | String "/" _ => path
     | _ => posix_join cwd path
     end).

Example dirname_of_file : posix_dirname "/srv/app/shop/__init__.py" = "/srv/app/shop".
Proof. reflexivity. Qed.

Example dirname_of_root_file : posix_dirname "/shop.py" = "/".
Proof. reflexivity. Qed.

Example dirname_of_bare_name : posix_dirname "shop.py" = "".
Proof. reflexivity. Qed.

Example abspath_of_relative : posix_abspath "/home/dev" "./shop.py" = "/home/dev/shop.py".
Proof. reflexivity. Qed.

Example abspath_of_parent : posix_abspath "/home/dev" "../lib//x.py" = "/home/lib/x.py".
Proof. reflexivity. Qed.

Example abspath_above_root : posix_abspath "/home/dev" "/../srv/./app/" = "/srv/app".
Proof. reflexivity. Qed.

Example abspath_of_empty : posix_abspath "/home/dev" "" = "/home/dev".
Proof. reflexivity. Qed.

Example abspath_two_slashes : posix_abspath "/home/dev" "//srv/app" = "//srv/app".
Proof. reflexivity. Qed.

(** An interpreter in which the package "shop" is imported and nothing
    is known of any other name: looking one up fails with
    [ImportError]. *)
Definition shop_env : env :=
  Env {[ "shop" := Module_ (Some "/srv/app/shop/__init__.py") ]} "/home/dev".

Definition lookup_fails : env → string → (exn + option module_spec) * env :=
  λ e name, (inl (ImportError name), e).

Definition import_fails : string → env → option exn * env :=
  λ name e, (Some (ImportError name), e).

Example root_of_unknown_name_without_spec :
  get_root_path (λ e _, (inr None, e)) import_fails posix_abspath posix_dirname
      "ghost" shop_env = (inr "/home/dev", shop_env).
Proof. reflexivity. Qed.

Example root_of_unknown_name_value_error :
  get_root_path (λ e _, (inl ValueError, e)) import_fails posix_abspath
      posix_dirname "ghost" shop_env = (inr "/home/dev", shop_env).
Proof. reflexivity. Qed.

Example unexpected_lookup_error_propagates :
  get_root_path (λ e _, (inl (OtherError "SyntaxError"), e)) import_fails
      posix_abspath posix_dirname "ghost" shop_env
    = (inl (OtherError "SyntaxError"), shop_env).
Proof. reflexivity. Qed.

(** The theorem of C7 in that interpreter. *)
Lemma get_root_path_imported_or_cwd_witness :
  get_root_path lookup_fails import_fails posix_abspath posix_dirname
      "shop" shop_env = (inr "/srv/app/shop", shop_env) ∧
  get_root_path lookup_fails import_fails posix_abspath posix_dirname
      "ghost" shop_env = (inr "/home/dev", shop_env).
Proof.
  split.
  - destruct (get_root_path_imported_or_cwd lookup_fails import_fails
                posix_abspath posix_dirname "shop" shop_env) as [Himported _].
    apply (Himported (Module_ (Some "/srv/app/shop/__init__.py"))
             "/srv/app/shop/__init__.py"); reflexivity.
  - destruct (get_root_path_imported_or_cwd lookup_fails import_fails
                posix_abspath posix_dirname "ghost" shop_env) as [_ Hcwd].
    apply (Hcwd (inl (ImportError "ghost")) shop_env); [reflexivity..|exact I].
Defined.

(** An import system whose lookup imports the parent package on the
    way, whose loaders have no [get_filename], and whose import puts a
    module with a file under [/srv/plugins]. *)
Definition finds_plain_loader : env → string → (exn + option module_spec) * env :=
  λ e _,
    (inr (Some (ModuleSpec (Some (Loader None)))),
     Env (<["plugins" := Module_ (Some "/srv/plugins/__init__.py")]>
            (sys_modules e)) (cwd e)).

Definition import_plugin : string → env → option exn * env :=
  λ name e,
    (None,
     Env (<[name := Module_ (Some ("/srv/plugins/" +:+ name +:+ ".py"))]>
            (sys_modules e)) (cwd e)).

(** An import that registers a namespace package: a module without
    file. *)
Definition import_namespace : string → env → option exn * env :=
  λ name e, (None, Env (<[name := Module_ None]> (sys_modules e)) (cwd e)).

Example namespace_package_has_no_root :
  (get_root_path finds_plain_loader import_namespace posix_abspath posix_dirname
      "pkg" shop_env).1
    = inl (RuntimeError (no_root_path_msg "pkg")).
Proof. reflexivity. Qed.

(** The interpreter after the lookup of "billing", and after its
    import. *)
Definition after_lookup : env := (finds_plain_loader shop_env "billing").2.

Definition after_import : env := (import_plugin "billing" after_lookup).2.

(** X10 for a plugin that has to be imported. *)
Lemma forced_import_is_remembered_witness :
  get_root_path finds_plain_loader import_plugin posix_abspath posix_dirname
      "billing" shop_env = (inr "/srv/plugins", after_import) ∧
  get_root_path lookup_fails import_fails posix_abspath posix_dirname
      "billing" after_import = (inr "/srv/plugins", after_import).
Proof.
  apply (forced_import_is_remembered finds_plain_loader lookup_fails
           import_plugin import_fails posix_abspath posix_dirname
           "billing" shop_env after_lookup after_import
           (ModuleSpec (Some (Loader None))) (Loader None)
           (Module_ (Some "/srv/plugins/billing.py")) "/srv/plugins/billing.py");
    reflexivity.
Defined.

End RootPath.

(** ** Blueprint paths ([_split_blueprint_path]) *)

Module Blueprints.

#[local] Open Scope nat_scope.

(** ["." in name] *)
Fixpoint contains_dot (name : string) : bool :=
  match name with
  | EmptyString => false
  | String c rest => bool_decide (c = "."%char) || contains_dot rest
  end.

(** [name.rpartition(".")[0]]: what stands before the last dot, and the
    empty string when there is no dot. *)
Fixpoint rpartition_head (name : string) : string :=
  match name with
  | EmptyString => EmptyString
  | String c rest =>
      if contains_dot rest then String c (rpartition_head rest) else EmptyString
  end.

(** [out = [name]]
    [if "." in name: out.extend(_split_blueprint_path(name.rpartition(".")[0]))]
    The recursion is on a shorter string; [fuel] bounds its depth. *)
Fixpoint split_with_fuel (fuel : nat) (name : string) : list string :=
  name ::
    match fuel with
    | 0 => []
    | S fuel' =>
        if contains_dot name
        then split_with_fuel fuel' (rpartition_head name)
        else []
    end.

Definition _split_blueprint_path (name : string) : list string :=
  split_with_fuel (String.length name) name.

(** The number of dots of a name. *)
Fixpoint count_dots (name : string) : nat :=
  match name with
  | EmptyString => 0
  | String c rest => (if bool_decide (c = "."%char) then 1 else 0) + count_dots rest
  end.

(** ["." .join(parts)] *)
Fixpoint join_dots (parts : list string) : string :=
  match parts with
  | [] => ""
  | [part] => part
  | part :: rest => part +:+ "." +:+ join_dots rest
  end.

Example split_three : _split_blueprint_path "admin.users.edit"
  = ["admin.users.edit"; "admin.users"; "admin"].
Proof. reflexivity. Qed.

Example split_plain : _split_blueprint_path "admin" = ["admin"].
Proof. reflexivity. Qed.

Example split_empty : _split_blueprint_path "" = [""].
Proof. reflexivity. Qed.

Example split_trailing_dot : _split_blueprint_path "admin." = ["admin."; "admin"].
Proof. reflexivity. Qed.

Example split_leading_dot : _split_blueprint_path ".edit" = [".edit"; ""].
Proof. reflexivity. Qed.

(** *** The recursion has enough fuel *)

Lemma rpartition_head_shorter name :
  contains_dot name = true →
  String.length (rpartition_head name) < String.length name.
Proof.
  induction name as [|c rest IH]; simpl; [done|].
  intros _. destruct (contains_dot rest); simpl; [|lia].
  specialize (IH eq_refl). lia.
Qed.

Lemma split_with_fuel_enough fuel : ∀ fuel' name,
  String.length name ≤ fuel → String.length name ≤ fuel' →
  split_with_fuel fuel name = split_with_fuel fuel' name.
Proof.
  induction fuel as [|fuel IH]; intros fuel' name Hf Hf'.
  - destruct name; simpl in Hf; [|lia]. by destruct fuel'.
  - destruct fuel' as [|fuel']; simpl.
    + destruct name; simpl in Hf'; [done | lia].
    + destruct (contains_dot name) eqn:Hdot; [|done].
      pose proof (rpartition_head_shorter name Hdot).
      f_equal. apply IH; lia.
Qed.

(** The equation of the source function. *)
Lemma split_blueprint_path_unfold name :
  _split_blueprint_path name
    = name :: (if contains_dot name
               then _split_blueprint_path (rpartition_head name)
               else []).
Proof.
  unfold _split_blueprint_path.
  destruct name as [|c rest]; [done|].
  change (String.length (String c rest)) with (S (String.length rest)).
  cbn [split_with_fuel].
  destruct (contains_dot (String c rest)) eqn:Hdot; [|done].
  pose proof (rpartition_head_shorter _ Hdot) as Hlen. simpl in Hlen.
  f_equal. apply split_with_fuel_enough; simpl; lia.
Qed.

(** *** Dots and parts *)

Lemma contains_dot_count name :
  contains_dot name = bool_decide (0 < count_dots name).
Proof.
  induction name as [|c rest IH]; simpl; [done|].
  rewrite IH. by destruct (bool_decide (c = "."%char)).
Qed.

Lemma count_dots_rpartition_head name :
  contains_dot name = true →
  count_dots name = S (count_dots (rpartition_head name)).
Proof.
  induction name as [|c rest IH]; simpl; [done|].
  destruct (contains_dot rest) eqn:Hrest; simpl.
  - intros _. rewrite (IH eq_refl). lia.
  - rewrite orb_false_r. intros Hc.
    rewrite contains_dot_count in Hrest.
    apply bool_decide_eq_false in Hrest.
    rewrite Hc. lia.
Qed.

Lemma contains_dot_app a b :
  contains_dot (a +:+ b) = contains_dot a || contains_dot b.
Proof.
  induction a as [|c a IH]; simpl; [done|]. by rewrite IH, orb_assoc.
Qed.

Lemma contains_dot_joined a b : contains_dot (a +:+ "." +:+ b) = true.
Proof. rewrite !contains_dot_app. simpl. apply orb_true_r. Qed.

Lemma rpartition_head_app a b :
  contains_dot b = false → rpartition_head (a +:+ "." +:+ b) = a.
Proof.
  intros Hb. change (a +:+ "." +:+ b) with (a +:+ String "." b).
  induction a as [|c a IH]; simpl.
  - by rewrite Hb.
  - rewrite contains_dot_app. simpl. rewrite orb_true_r. by rewrite IH.
Qed.

Lemma append_assoc (a b c : string) : (a +:+ b) +:+ c = a +:+ b +:+ c.
Proof.
  induction a as [|x a IH]; [done|].
  change (String x ((a +:+ b) +:+ c) = String x (a +:+ b +:+ c)). by rewrite IH.
Qed.

Lemma join_dots_snoc parts part :
  parts ≠ [] → join_dots (parts ++ [part]) = join_dots parts +:+ "." +:+ part.
Proof.
  induction parts as [|p [|q rest] IH]; intros Hne; simpl in *; [done|done|].
  rewrite IH by done. by rewrite !append_assoc.
Qed.

(** X12. For a name made of parts without dots, joined by dots, the
    result lists the name and then each shorter path of leading parts,
    down to the first part alone. *)
Theorem split_blueprint_path_of_parts (parts : list string) :
  Forall (λ part, contains_dot part = false) parts →
  parts ≠ [] →
  _split_blueprint_path (join_dots parts)
    = map (λ k, join_dots (take k parts)) (reverse (seq 1 (length parts))).
Proof.
  induction parts as [|part parts IH] using rev_ind; [done|].
  intros Hparts _. apply Forall_app in Hparts as [Hparts Hpart].
  rewrite Forall_singleton in Hpart.
  rewrite length_app, Nat.add_1_r, seq_S, reverse_snoc. simpl.
  rewrite split_blueprint_path_unfold.
  rewrite firstn_all2 by (rewrite length_app; simpl; lia).
  f_equal.
  destruct parts as [|p rest].
  - simpl. by rewrite Hpart.
  - rewrite join_dots_snoc by done.
    rewrite contains_dot_joined, rpartition_head_app by done.
    rewrite IH by done.
    apply map_ext_in. intros k Hk.
    apply list_elem_of_In in Hk.
    rewrite elem_of_reverse, elem_of_seq in Hk.
    by rewrite take_app_le by lia.
Qed.

(** X13. The result has one entry more than the name has dots, and
    the name itself comes first. *)
Theorem split_blueprint_path_length (name : string) :
  length (_split_blueprint_path name) = S (count_dots name) ∧
  head (_split_blueprint_path name) = Some name.
Proof.
  split; [|by rewrite split_blueprint_path_unfold].
  remember (String.length name) as n eqn:Hn.
  revert name Hn. induction (lt_wf n) as [n _ IH]. intros name ->.
  rewrite split_blueprint_path_unfold. simpl. f_equal.
  destruct (contains_dot name) eqn:Hdot.
  - rewrite (IH _ (rpartition_head_shorter name Hdot) _ eq_refl).
    by rewrite (count_dots_rpartition_head name Hdot).
  - rewrite contains_dot_count in Hdot.
    apply bool_decide_eq_false in Hdot. simpl. lia.
Qed.

(** X12 for a blueprint nested twice. *)
Lemma split_blueprint_path_of_parts_witness :
  _split_blueprint_path (join_dots ["admin"; "users"; "edit"])
    = [join_dots ["admin"; "users"; "edit"]; join_dots ["admin"; "users"];
       join_dots ["admin"]].
Proof.
  apply (split_blueprint_path_of_parts ["admin"; "users"; "edit"]).
  - repeat constructor.
  - discriminate.
Defined.

End Blueprints.

(** ** Arguments for the file-serving delegate
    ([_prepare_send_file_kwargs], [send_file], [send_from_directory]) *)

Module SendFile.

(** The values that travel as keyword arguments: [None], flags,
    numbers, strings, and objects of the framework that the helpers only
    pass on (the WSGI environ, the response class, a bound method, an
    open file). *)
Inductive value :=
  | VNone
  | VBool (b : bool)
  | VInt (n : Z)
  | VStr (s : string)
  | VObj (name : string).

#[global] Instance value_eq_dec : EqDecision value.
Proof. solve_decision. Defined.

(** Keyword arguments: a [dict] from names to values. *)
Abbreviation kwargs := (gmap string value).

(** What the helpers read of [current_app] and of [request]. *)
Record app := App {
  get_send_file_max_age : value;      (* the bound method *)
  config : gmap string value;
  response_class : value;
  root_path : value
}.

(** [if kwargs.get("max_age") is None:]
    [    kwargs["max_age"] = current_app.get_send_file_max_age] *)
Definition default_max_age (a : app) (kw : kwargs) : kwargs :=
  match kw !! "max_age" with
  | None | Some VNone => <["max_age" := get_send_file_max_age a]> kw
  | Some _ => kw
  end.

(** [kwargs.update(environ=request.environ,]
    [    use_x_sendfile=current_app.config["USE_X_SENDFILE"],]
    [    response_class=current_app.response_class,]
    [    _root_path=current_app.root_path)]
    The subscript raises [KeyError] when the configuration has no such
    key. *)
Definition _prepare_send_file_kwargs (a : app) (environ : value) (kw : kwargs)
  : exn + kwargs :=
  let kw := default_max_age a kw in
  match config a !! "USE_X_SENDFILE" with
  | None => inl (KeyError "USE_X_SENDFILE")
  | Some use_x_sendfile =>
      inr (<["_root_path" := root_path a]>
            (<["response_class" := response_class a]>
              (<["use_x_sendfile" := use_x_sendfile]>
                (<["environ" := environ]> kw))))
  end.

Section WithDelegate.
Context {Response : Type}.

(** [werkzeug.utils.send_file] and [werkzeug.utils.send_from_directory],
    called with keyword arguments. *)
Variable wz_send_file : kwargs → exn + Response.
Variable wz_send_from_directory : value → value → kwargs → exn + Response.

(** The parameters of [send_file]. *)
Record send_file_args := SendFileArgs {
  path_or_file : value;
  mimetype : value;
  as_attachment : value;
  download_name : value;
  conditional : value;
  etag : value;
  last_modified : value;
  max_age : value
}.

(** The keyword arguments [send_file] hands to
    [_prepare_send_file_kwargs]. *)
Definition send_file_kwargs (environ : value) (x : send_file_args) : kwargs :=
  <["path_or_file" := path_or_file x]>
    (<["environ" := environ]>
      (<["mimetype" := mimetype x]>
        (<["as_attachment" := as_attachment x]>
          (<["download_name" := download_name x]>
            (<["conditional" := conditional x]>
              (<["etag" := etag x]>
                (<["last_modified" := last_modified x]>
                  (<["max_age" := max_age x]> ∅)))))))).

Definition send_file (a : app) (environ : value) (x : send_file_args)
  : exn + Response :=
  match _prepare_send_file_kwargs a environ (send_file_kwargs environ x) with
  | inl err => inl err
  | inr kw => wz_send_file kw
  end.

Definition send_from_directory (a : app) (environ : value)
    (directory path : value) (kw : kwargs) : exn + Response :=
  match _prepare_send_file_kwargs a environ kw with
  | inl err => inl err
  | inr kw' => wz_send_from_directory directory path kw'
  end.

End WithDelegate.

(** The names the framework sets itself. *)
Definition framework_keys : list string :=
  ["environ"; "use_x_sendfile"; "response_class"; "_root_path"].

Lemma default_max_age_lookup a kw :
  default_max_age a kw !! "max_age"
    = Some (match kw !! "max_age" with
            | None | Some VNone => get_send_file_max_age a
            | Some v => v
            end).
Proof.
  unfold default_max_age.
  destruct (kw !! "max_age") as [[]|] eqn:Hkw;
    by rewrite ?lookup_insert_eq, ?Hkw.
Qed.

Lemma default_max_age_other a kw k :
  k ≠ "max_age" → default_max_age a kw !! k = kw !! k.
Proof.
  intros Hk. unfold default_max_age.
  destruct (kw !! "max_age") as [[]|]; by rewrite ?lookup_insert_ne.
Qed.

Lemma default_max_age_idempotent a kw :
  default_max_age a (default_max_age a kw) = default_max_age a kw.
Proof.
  apply map_eq. intros k. destruct (decide (k = "max_age")) as [->|Hk].
  - rewrite !default_max_age_lookup.
    destruct (kw !! "max_age") as [[]|]; try done;
      by destruct (get_send_file_max_age a).
  - by rewrite !default_max_age_other.
Qed.

Lemma default_max_age_dom a kw :
  dom (default_max_age a kw) = {["max_age"]} ∪ dom kw.
Proof.
  unfold default_max_age.
  destruct (kw !! "max_age") as [v|] eqn:Hkw.
  - assert ({["max_age"]} ∪ dom kw = dom kw) as Hin.
    { apply subseteq_union_1_L, singleton_subseteq_l, elem_of_dom. eauto. }
    destruct v; by rewrite ?dom_insert_L, ?Hin.
  - by rewrite dom_insert_L.
Qed.

Lemma prepared_kwargs_aux (a : app) (environ : value) (kw : kwargs) :
  match _prepare_send_file_kwargs a environ kw with
  | inl err =>
      config a !! "USE_X_SENDFILE" = None ∧ err = KeyError "USE_X_SENDFILE"
  | inr kw' =>
      kw' !! "environ" = Some environ ∧
      kw' !! "use_x_sendfile" = config a !! "USE_X_SENDFILE" ∧
      kw' !! "response_class" = Some (response_class a) ∧
      kw' !! "_root_path" = Some (root_path a) ∧
      kw' !! "max_age"
        = Some (match kw !! "max_age" with
                | None | Some VNone => get_send_file_max_age a
                | Some v => v
                end) ∧
      (∀ k, k ∉ framework_keys → k ≠ "max_age" → kw' !! k = kw !! k) ∧
      dom kw' = list_to_set framework_keys ∪ {["max_age"]} ∪ dom kw
  end.
Proof.
  unfold _prepare_send_file_kwargs.
  destruct (config a !! "USE_X_SENDFILE") as [x|] eqn:Hx; [|done].
  split; [by rewrite !lookup_insert_ne, lookup_insert_eq by done|].
  split; [by rewrite !lookup_insert_ne, lookup_insert_eq by done|].
  split; [by rewrite !lookup_insert_ne, lookup_insert_eq by done|].
  split; [by rewrite lookup_insert_eq|].
  split; [|split].
  - rewrite !lookup_insert_ne by done. apply default_max_age_lookup.
  - intros k Hk Hmax. unfold framework_keys in Hk.
    rewrite !lookup_insert_ne by set_solver.
    by apply default_max_age_other.
  - rewrite !dom_insert_L, default_max_age_dom. unfold framework_keys.
    apply set_eq. intros k. simpl.
    rewrite !elem_of_union, !elem_of_singleton, elem_of_empty. tauto.
Qed.


(** X15. Preparing is idempotent: arguments that were prepared come
    out of a second preparation unchanged. *)
Theorem prepare_idempotent (a : app) (environ : value) (kw kw' : kwargs) :
  _prepare_send_file_kwargs a environ kw = inr kw' →
  _prepare_send_file_kwargs a environ kw' = inr kw'.
Proof.
  unfold _prepare_send_file_kwargs.
  destruct (config a !! "USE_X_SENDFILE") as [x|] eqn:Hx; [|done].
  intros [= <-]. f_equal. apply map_eq. intros k.
  destruct (decide (k = "max_age")) as [->|Hk].
  - rewrite !lookup_insert_ne by done.
    rewrite default_max_age_lookup, !lookup_insert_ne by done.
    rewrite default_max_age_lookup.
    destruct (kw !! "max_age") as [[]|]; try done;
      by destruct (get_send_file_max_age a).
  - rewrite !lookup_insert. repeat case_decide; try done.
    rewrite default_max_age_other by done.
    by rewrite !lookup_insert_ne by done.
Qed.

Lemma prepare_idempotent_witness :
  let a := App (VObj "get_send_file_max_age") {[ "USE_X_SENDFILE" := VBool false ]}
               (VObj "Response") (VStr "/srv/app") in
  let kw : kwargs := {[ "as_attachment" := VBool true; "environ" := VStr "forged" ]} in
  ∃ kw', _prepare_send_file_kwargs a (VObj "environ") kw = inr kw' ∧
    _prepare_send_file_kwargs a (VObj "environ") kw' = inr kw'.
Proof.
  intros a kw. eexists. split; [reflexivity|].
  apply (prepare_idempotent a (VObj "environ") kw). reflexivity.
Defined.

(** X16. [send_file] hands the delegate exactly twelve keyword
    arguments: its eight parameters, of which all but [max_age] arrive
    as given, and the four of the framework. *)
Theorem send_file_passes_parameters {Response : Type}
    (wz_send_file : kwargs → exn + Response)
    (a : app) (environ use_x_sendfile : value) (x : send_file_args) :
  config a !! "USE_X_SENDFILE" = Some use_x_sendfile →
  ∃ kw,
    send_file wz_send_file a environ x = wz_send_file kw ∧
    dom kw = list_to_set
      ["path_or_file"; "mimetype"; "as_attachment"; "download_name";
       "conditional"; "etag"; "last_modified"; "max_age";
       "environ"; "use_x_sendfile"; "response_class"; "_root_path"] ∧
    kw !! "path_or_file" = Some (path_or_file x) ∧
    kw !! "mimetype" = Some (mimetype x) ∧
    kw !! "as_attachment" = Some (as_attachment x) ∧
    kw !! "download_name" = Some (download_name x) ∧
    kw !! "conditional" = Some (conditional x) ∧
    kw !! "etag" = Some (etag x) ∧
    kw !! "last_modified" = Some (last_modified x) ∧
    kw !! "max_age"
      = Some (match max_age x with
              | VNone => get_send_file_max_age a
              | v => v
              end).
Proof.
  intros Hx.
  pose proof (prepared_kwargs_aux a environ (send_file_kwargs environ x)) as Hprep.
  unfold send_file.
  destruct (_prepare_send_file_kwargs a environ (send_file_kwargs environ x))
    as [err|kw] eqn:Hrun.
  { destruct Hprep as [Hnone _]. congruence. }
  destruct Hprep as (Henv & Huse & Hclass & Hroot & Hmax & Hother & Hdom).
  exists kw. split; [done|]. split.
  - rewrite Hdom. unfold send_file_kwargs.
    rewrite !dom_insert_L, dom_empty_L. set_solver.
  - assert (∀ k v, k ∉ framework_keys → k ≠ "max_age" →
              send_file_kwargs environ x !! k = Some v → kw !! k = Some v)
      as Hpass.
    { intros k v Hk Hmaxk Hv. by rewrite Hother. }
    unfold framework_keys in Hpass.
    repeat (split; [apply Hpass;
                    [apply (bool_decide_unpack _); by vm_compute | done
                    | unfold send_file_kwargs;
                      by rewrite ?lookup_insert_eq, ?lookup_insert_ne by done]|]).
    rewrite Hmax. unfold send_file_kwargs.
    rewrite !lookup_insert_ne, lookup_insert_eq by done.
    by destruct (max_age x).
Qed.

(** An application with the default configuration, and a call of
    [send_file] that leaves [max_age] to it. *)
Definition shop_app : app :=
  App (VObj "get_send_file_max_age") {[ "USE_X_SENDFILE" := VBool false ]}
      (VObj "Response") (VStr "/srv/app").

Definition report_args : send_file_args :=
  SendFileArgs (VStr "report.pdf") VNone (VBool true) (VStr "q3.pdf")
               (VBool true) (VBool true) VNone VNone.

(** X16 for that call, with a delegate that answers with its
    arguments. *)
Lemma send_file_passes_parameters_witness :
  ∃ kw,
    send_file (λ kw, inr kw) shop_app (VObj "environ") report_args = inr kw ∧
    dom kw = list_to_set
      ["path_or_file"; "mimetype"; "as_attachment"; "download_name";
       "conditional"; "etag"; "last_modified"; "max_age";
       "environ"; "use_x_sendfile"; "response_class"; "_root_path"] ∧
    kw !! "path_or_file" = Some (VStr "report.pdf") ∧
    kw !! "mimetype" = Some VNone ∧
    kw !! "as_attachment" = Some (VBool true) ∧
    kw !! "download_name" = Some (VStr "q3.pdf") ∧
    kw !! "conditional" = Some (VBool true) ∧
    kw !! "etag" = Some (VBool true) ∧
    kw !! "last_modified" = Some VNone ∧
    kw !! "max_age" = Some (VObj "get_send_file_max_age").
Proof.
  apply (send_file_passes_parameters (λ kw, inr kw) shop_app (VObj "environ")
           (VBool false) report_args).
  reflexivity.
Defined.

(** X17. The caller of [send_from_directory] has no say in the four
    arguments of the framework: two calls whose keyword arguments differ
    only under those names reach the delegate alike (and fail alike). *)
Theorem send_from_directory_ignores_framework_keys {Response : Type}
    (wz_send_from_directory : value → value → kwargs → exn + Response)
    (a : app) (environ directory path : value) (kw1 kw2 : kwargs) :
  (∀ k, k ∉ framework_keys → kw1 !! k = kw2 !! k) →
  send_from_directory wz_send_from_directory a environ directory path kw1
    = send_from_directory wz_send_from_directory a environ directory path kw2.
Proof.
  intros Hagree. unfold send_from_directory.
  assert (_prepare_send_file_kwargs a environ kw1
            = _prepare_send_file_kwargs a environ kw2) as ->; [|done].
  pose proof (prepared_kwargs_aux a environ kw1) as H1.
  pose proof (prepared_kwargs_aux a environ kw2) as H2.
  destruct (_prepare_send_file_kwargs a environ kw1) as [err1|r1],
           (_prepare_send_file_kwargs a environ kw2) as [err2|r2].
  - destruct H1 as [_ ->], H2 as [_ ->]. done.
  - destruct H1 as [Hnone _], H2 as (_ & Huse & _ & _ & _ & _ & Hdom).
    rewrite Hnone in Huse.
    assert (is_Some (r2 !! "use_x_sendfile")) as [? ?]; [|congruence].
    apply elem_of_dom. rewrite Hdom.
    unfold framework_keys. simpl.
    rewrite !elem_of_union, !elem_of_singleton. tauto.
  - destruct H2 as [Hnone _], H1 as (_ & Huse & _ & _ & _ & _ & Hdom).
    rewrite Hnone in Huse.
    assert (is_Some (r1 !! "use_x_sendfile")) as [? ?]; [|congruence].
    apply elem_of_dom. rewrite Hdom.
    unfold framework_keys. simpl.
    rewrite !elem_of_union, !elem_of_singleton. tauto.
  - f_equal. apply map_eq. intros k.
    destruct H1 as (He1 & Hu1 & Hc1 & Hr1 & Hm1 & Ho1 & _).
    destruct H2 as (He2 & Hu2 & Hc2 & Hr2 & Hm2 & Ho2 & _).
    assert ("max_age" ∉ framework_keys) as Hmax
      by (apply (bool_decide_unpack _); by vm_compute).
    destruct (decide (k ∈ framework_keys)) as [Hk|Hk].
    + unfold framework_keys in Hk.
      repeat (apply elem_of_cons in Hk as [->|Hk]; [congruence|]).
      by apply elem_of_nil in Hk.
    + destruct (decide (k = "max_age")) as [->|Hkm].
      * rewrite Hm1, Hm2, (Hagree _ Hmax). done.
      * rewrite Ho1, Ho2 by done. by apply Hagree.
Qed.

Lemma send_from_directory_ignores_framework_keys_witness :
  send_from_directory (λ d p kw, inr (d, p, kw)) shop_app (VObj "environ")
      (VStr "uploads") (VStr "a.png")
      {[ "as_attachment" := VBool true; "environ" := VStr "forged" ]}
    = send_from_directory (λ d p kw, inr (d, p, kw)) shop_app (VObj "environ")
      (VStr "uploads") (VStr "a.png")
      {[ "as_attachment" := VBool true ]}.
Proof.
  apply (send_from_directory_ignores_framework_keys
           (λ d p kw, inr (d, p, kw)) shop_app (VObj "environ")
           (VStr "uploads") (VStr "a.png")).
  intros k Hk. unfold framework_keys in Hk.
  destruct (decide (k = "environ")) as [->|Hne].
  - exfalso. apply Hk. apply elem_of_cons. by left.
  - destruct (decide (k = "as_attachment")) as [->|Hne'].
    + by rewrite lookup_insert_eq, lookup_singleton_eq.
    + by rewrite lookup_insert_ne, !lookup_singleton_ne by done.
Defined.

End SendFile.
